(** * ImVeo: the image-to-video generation workflow

    A shallow embedding of the TypeScript sources, named after the modules
    [App.tsx] imports:

      - [types.ts] (AspectRatio, VideoState) and
        [components/FileUpload.tsx] (handleDrop, handleFileChange),
        both in src/unnamed/part_001;
      - [components/Button.tsx] (the disabled attribute),
        in src/unnamed/part_000;
      - [services/geminiService.ts] (fileToGenerativePart,
        generateVeoVideo), in src/unnamed/part_002;
      - [App.tsx] (handleGenerate, the Generate button, the dismiss
        handler), in src/App.tsx.

    Asynchronous code is written in a small monad [Async] that threads the
    log of effects performed so far; the answers of the outside world (the
    host's [window.aistudio], the file reader, the remote video service)
    are supplied by a [World].  A promise either resolves, rejects or
    never settles; the polling loop recurses on the list of answers the
    service gives, so it is total.  JavaScript strings are modelled as
    [string] (sequences of characters); the code uses only prefix,
    substring, splitting at a comma, emptiness and concatenation. *)

From Stdlib Require Import String Ascii List Bool Arith NArith Lia.
Import ListNotations.
Local Open Scope string_scope.
Local Open Scope list_scope.

(* ================================================================= *)
(** ** JavaScript string primitives used by the sources *)

Module Js.

(** A string is falsy exactly when it is empty. *)
Definition truthy (s : string) : bool := negb (s =? "")%string.

(** [x || d] for [x : string | undefined]. *)
Definition orElse (x : option string) (d : string) : string :=
  match x with
  | Some s => if truthy s then s else d
  | None => d
  end.

(** [s.startsWith(p)]. *)
Definition startsWith (s p : string) : bool := String.prefix p s.

(** [s.includes(needle)]. *)
Fixpoint includes (s needle : string) {struct s} : bool :=
  String.prefix needle s
  || match s with
     | EmptyString => false
     | String _ s' => includes s' needle
     end.

(** [s.split(sep)] for a one-character separator. *)
Fixpoint split (sep : ascii) (s : string) : list string :=
  match s with
  | EmptyString => [EmptyString]
  | String c s' =>
      if Ascii.eqb c sep then EmptyString :: split sep s'
      else match split sep s' with
           | [] => [String c EmptyString]
           | x :: xs => String c x :: xs
           end
  end.

(** The text a template literal substitutes for [x : string | undefined]. *)
Definition template (x : option string) : string :=
  match x with
  | Some s => s
  | None => "undefined"
  end.

End Js.

(* ================================================================= *)
(** ** types.ts *)

Inductive AspectRatio : Type :=
| LANDSCAPE   (* '16:9' *)
| PORTRAIT.   (* '9:16' *)

Definition AspectRatio_value (a : AspectRatio) : string :=
  match a with
  | LANDSCAPE => "16:9"
  | PORTRAIT => "9:16"
  end.

Module VideoState.
Record t : Type := {
  isLoading : bool;
  progressMessage : string;
  videoUrl : option string;
  error : option string
}.
End VideoState.

(** The browser's [File]: the code reads only its media type; name and size
    are carried to show that no handler looks at them. *)
Module File.
Record t : Type := {
  name : string;
  type : string;
  size : N
}.
End File.

(* ================================================================= *)
(** ** Values exchanged with the outside world *)

(** A thrown value, read by the code through [error?.message]. *)
Module JsError.
Record t : Type := { message : option string }.
End JsError.

(** [new Error(msg)]. *)
Definition newError (msg : string) : JsError.t := {| JsError.message := Some msg |}.

(** The eventual fate of a promise. [Pending] is a promise that never
    settles. *)
Inductive Promise (A : Type) : Type :=
| Resolved (a : A)
| Rejected (e : JsError.t)
| Pending.
Arguments Resolved {A} a.
Arguments Rejected {A} e.
Arguments Pending {A}.

(** The remote operation handle, with the shape the code reads:
    [operation.done], [operation.error.message] and
    [operation.response?.generatedVideos?.[0]?.video?.uri].  An absent
    [done] flag is falsy and is represented as [false]. *)
Module Operation.
Record Error : Type := { message : option string }.
Record Video : Type := { uri : option string }.
Record GeneratedVideo : Type := { video : option Video }.
Record Response : Type := { generatedVideos : option (list GeneratedVideo) }.
Record t : Type := {
  done : bool;
  error : option Error;
  response : option Response
}.
End Operation.

(** The argument of [ai.models.generateVideos]. *)
Module GenerateVideos.
Record Image : Type := {
  imageBytes : option string;
  mimeType : string
}.
Record Config : Type := {
  numberOfVideos : N;
  resolution : string;
  aspectRatio : AspectRatio
}.
Record Parameters : Type := {
  model : string;
  prompt : string;
  image : Image;
  config : Config
}.
End GenerateVideos.

(** The three shapes of argument [setVideoState] is called with in App.tsx,
    and the dismiss handler's. *)
Inductive StateUpdate : Type :=
| Replace (next : VideoState.t)
    (* setVideoState({...}) *)
| Progress (message : string)
    (* setVideoState(prev => ({ ...prev, progressMessage: message })) *)
| Fail (message : string)
    (* setVideoState(prev => ({ ...prev, isLoading: false, error: message })) *)
| ClearError.
    (* setVideoState(prev => ({ ...prev, error: null })) *)

Definition applyUpdate (u : StateUpdate) (prev : VideoState.t) : VideoState.t :=
  match u with
  | Replace next => next
  | Progress message =>
      {| VideoState.isLoading := VideoState.isLoading prev;
         VideoState.progressMessage := message;
         VideoState.videoUrl := VideoState.videoUrl prev;
         VideoState.error := VideoState.error prev |}
  | Fail message =>
      {| VideoState.isLoading := false;
         VideoState.progressMessage := VideoState.progressMessage prev;
         VideoState.videoUrl := VideoState.videoUrl prev;
         VideoState.error := Some message |}
  | ClearError =>
      {| VideoState.isLoading := VideoState.isLoading prev;
         VideoState.progressMessage := VideoState.progressMessage prev;
         VideoState.videoUrl := VideoState.videoUrl prev;
         VideoState.error := None |}
  end.

(** Every effect the modelled code performs, in the order performed.  A
    call to the outside world is logged with the fate of its promise. *)
Inductive Event : Type :=
| ConsoleLog (text : string)
| ConsoleError (error : JsError.t)
| SetVideoState (u : StateUpdate)
| HasSelectedApiKey (reply : Promise bool)
| OpenSelectKey (reply : Promise unit)
| NewGoogleGenAI (apiKey : option string)
| ReadAsDataURL (file : File.t) (reply : Promise string)
| GenerateVideos (params : GenerateVideos.Parameters) (reply : Promise Operation.t)
| SetTimeout (ms : N)
| GetVideosOperation (operation : Operation.t) (reply : Promise Operation.t).

(** The host capability [window.aistudio].  [openSelectKey n] is the fate
    of the call made after [n] earlier calls. *)
Record AIStudio : Type := {
  hasSelectedApiKey : Promise bool;
  openSelectKey : nat -> Promise unit
}.

(** What the outside world answers during one run of the workflow.
    [getVideosOperation] lists the answers to the successive status
    requests; a request beyond the list is never answered. *)
Record World : Type := {
  aistudio : option AIStudio;                 (* window.aistudio *)
  API_KEY : option string;                    (* process.env.API_KEY *)
  readAsDataURL : File.t -> Promise string;   (* FileReader *)
  generateVideos : GenerateVideos.Parameters -> Promise Operation.t;
  getVideosOperation : list (Promise Operation.t)
}.

(* ================================================================= *)
(** ** The monad of asynchronous code *)

Definition Async (A : Type) : Type := list Event -> list Event * Promise A.

Definition ret {A : Type} (a : A) : Async A :=
  fun log => (log, Resolved a).

Definition throw {A : Type} (e : JsError.t) : Async A :=
  fun log => (log, Rejected e).

Definition bind {A B : Type} (m : Async A) (k : A -> Async B) : Async B :=
  fun log =>
    match m log with
    | (log', Resolved a) => k a log'
    | (log', Rejected e) => (log', Rejected e)
    | (log', Pending) => (log', Pending)
    end.

(** [try { m } catch (e) { handler e }]. *)
Definition tryCatch {A : Type} (m : Async A) (handler : JsError.t -> Async A) : Async A :=
  fun log =>
    match m log with
    | (log', Rejected e) => handler e log'
    | settled => settled
    end.

(** A synchronous effect. *)
Definition emit (e : Event) : Async unit :=
  fun log => (log ++ [e], Resolved tt).

(** [await] of a call whose promise has fate [p]. *)
Definition await {A : Type} (call : Promise A -> Event) (p : Promise A) : Async A :=
  fun log => (log ++ [call p], p).

Notation "x <- m ;; k" := (bind m (fun x => k))
  (at level 61, m at next level, right associativity).
Notation "m ;; k" := (bind m (fun _ => k))
  (at level 61, right associativity).

Definition setVideoState (u : StateUpdate) : Async unit := emit (SetVideoState u).

Fixpoint countOpenSelectKey (log : list Event) : nat :=
  match log with
  | [] => 0
  | OpenSelectKey _ :: log' => S (countOpenSelectKey log')
  | _ :: log' => countOpenSelectKey log'
  end.

(** [await window.aistudio.openSelectKey()]. *)
Definition callOpenSelectKey (studio : AIStudio) : Async unit :=
  fun log => await OpenSelectKey (openSelectKey studio (countOpenSelectKey log)) log.

(* ================================================================= *)
(** ** services/geminiService.ts *)

Module GenerativePart.
Record t : Type := {
  mimeType : string;
  data : option string     (* [split(',')[1]] is undefined without a comma *)
}.
End GenerativePart.

Definition fileToGenerativePart (w : World) (file : File.t) : Async GenerativePart.t :=
  base64String <- await (ReadAsDataURL file) (readAsDataURL w file) ;;
  ret {| GenerativePart.mimeType := File.type file;
         GenerativePart.data := nth_error (Js.split "," base64String) 1 |}.

Definition FALLBACK_PROMPT : string := "Animate this image cinematically".

(** The object literal passed to [ai.models.generateVideos]. *)
Definition generateVideosParameters
    (imagePart : GenerativePart.t) (prompt : string) (aspectRatio : AspectRatio)
  : GenerateVideos.Parameters :=
  {| GenerateVideos.model := "veo-3.1-fast-generate-preview";
     GenerateVideos.prompt := Js.orElse (Some prompt) FALLBACK_PROMPT;
     GenerateVideos.image :=
       {| GenerateVideos.imageBytes := GenerativePart.data imagePart;
          GenerateVideos.mimeType := GenerativePart.mimeType imagePart |};
     GenerateVideos.config :=
       {| GenerateVideos.numberOfVideos := 1;
          GenerateVideos.resolution := "720p";
          GenerateVideos.aspectRatio := aspectRatio |} |}.

(** [while (!operation.done) { wait 5 s; operation = await getVideosOperation }]. *)
Fixpoint pollLoop (replies : list (Promise Operation.t)) (operation : Operation.t)
  : Async Operation.t :=
  if Operation.done operation then ret operation
  else
    emit (SetTimeout 5000) ;;
    emit (ConsoleLog "Polling operation status...") ;;
    match replies with
    | [] => await (GetVideosOperation operation) Pending
    | reply :: replies' =>
        operation' <- await (GetVideosOperation operation) reply ;;
        pollLoop replies' operation'
    end.

(** [operation.response?.generatedVideos?.[0]?.video?.uri]. *)
Definition videoUri (operation : Operation.t) : option string :=
  match Operation.response operation with
  | None => None
  | Some response =>
      match Operation.generatedVideos response with
      | None => None
      | Some videos =>
          match nth_error videos 0 with
          | None => None
          | Some generated =>
              match Operation.video generated with
              | None => None
              | Some v => Operation.uri v
              end
          end
      end
  end.

Definition NO_URI_MESSAGE : string := "No video URI returned from the API.".

(** The statements of [generateVeoVideo] after the polling loop. *)
Definition resolveOperation (w : World) (operation : Operation.t) : Async string :=
  match Operation.error operation with
  | Some e =>
      throw (newError ("Video generation failed: "
                       ++ Js.orElse (Operation.message e) "Unknown error")%string)
  | None =>
      match videoUri operation with
      | Some videoUri =>
          if Js.truthy videoUri
          then ret (videoUri ++ "&key=" ++ Js.template (API_KEY w))%string
          else throw (newError NO_URI_MESSAGE)
      | None => throw (newError NO_URI_MESSAGE)
      end
  end.

Definition generateVeoVideo
    (w : World) (imageFile : File.t) (prompt : string) (aspectRatio : AspectRatio)
  : Async string :=
  emit (NewGoogleGenAI (API_KEY w)) ;;
  imagePart <- fileToGenerativePart w imageFile ;;
  emit (ConsoleLog "Starting video generation...") ;;
  let params := generateVideosParameters imagePart prompt aspectRatio in
  operation <- await (GenerateVideos params) (generateVideos w params) ;;
  emit (ConsoleLog "Operation created, polling for completion...") ;;
  operation <- pollLoop (getVideosOperation w) operation ;;
  resolveOperation w operation.

(* ================================================================= *)
(** ** App.tsx: handleGenerate *)

Definition initialVideoState : VideoState.t :=
  {| VideoState.isLoading := false;
     VideoState.progressMessage := "";
     VideoState.videoUrl := None;
     VideoState.error := None |}.

Definition startState : VideoState.t :=
  {| VideoState.isLoading := true;
     VideoState.progressMessage := "Initializing authentication...";
     VideoState.videoUrl := None;
     VideoState.error := None |}.

Definition doneState (url : string) : VideoState.t :=
  {| VideoState.isLoading := false;
     VideoState.progressMessage := "Done!";
     VideoState.videoUrl := Some url;
     VideoState.error := None |}.

Definition PROGRESS_MESSAGE : string := "Uploading image & starting generation...".

Definition ENTITY_NOT_FOUND : string := "Requested entity was not found".

Definition KEY_INVALID_MESSAGE : string :=
  "API Key session invalid. Please try generating again to select a new key.".

(** [error?.message || "An unexpected error occurred"]. *)
Definition errorMessageOf (error : JsError.t) : string :=
  Js.orElse (JsError.message error) "An unexpected error occurred".

(** Step 1 of the try block: check or request the API key. *)
Definition checkApiKey (w : World) : Async unit :=
  match aistudio w with
  | Some studio =>
      hasKey <- await HasSelectedApiKey (hasSelectedApiKey studio) ;;
      if negb hasKey then
        tryCatch (callOpenSelectKey studio)
                 (fun _ => throw (newError "API Key selection is required to proceed."))
      else ret tt
  | None => ret tt
  end.

(** The catch block of [handleGenerate]. *)
Definition handleError (w : World) (error : JsError.t) : Async unit :=
  emit (ConsoleError error) ;;
  let errorMessage := errorMessageOf error in
  if Js.includes errorMessage ENTITY_NOT_FOUND then
    setVideoState (Fail KEY_INVALID_MESSAGE) ;;
    match aistudio w with
    | Some studio => tryCatch (callOpenSelectKey studio) (fun _ => ret tt)
    | None => ret tt
    end
  else
    setVideoState (Fail errorMessage).

Definition handleGenerate
    (w : World) (file : option File.t) (prompt : string) (aspectRatio : AspectRatio)
  : Async unit :=
  match file with
  | None => ret tt
  | Some file =>
      setVideoState (Replace startState) ;;
      tryCatch
        (checkApiKey w ;;
         setVideoState (Progress PROGRESS_MESSAGE) ;;
         url <- generateVeoVideo w file prompt aspectRatio ;;
         setVideoState (Replace (doneState url)))
        (handleError w)
  end.

(* ================================================================= *)
(** ** Observations on a log of effects *)

(** The effects of one call of [handleGenerate], from an empty log. *)
Definition trace
    (w : World) (file : option File.t) (prompt : string) (aspectRatio : AspectRatio)
  : list Event :=
  fst (handleGenerate w file prompt aspectRatio []).

Definition stateUpdateOf (e : Event) : list StateUpdate :=
  match e with
  | SetVideoState u => [u]
  | _ => []
  end.

(** The arguments of the [setVideoState] calls, in order. *)
Definition stateUpdates (tr : list Event) : list StateUpdate :=
  flat_map stateUpdateOf tr.

(** The workflow state after the updates are applied in order to [vs]. *)
Definition applyUpdates (updates : list StateUpdate) (vs : VideoState.t) : VideoState.t :=
  fold_left (fun prev u => applyUpdate u prev) updates vs.

Definition finalState (vs : VideoState.t) (tr : list Event) : VideoState.t :=
  applyUpdates (stateUpdates tr) vs.

(** The operation handle an effect delivers to the code, if any. *)
Definition handleOf (e : Event) : list Operation.t :=
  match e with
  | GenerateVideos _ (Resolved operation) => [operation]
  | GetVideosOperation _ (Resolved operation) => [operation]
  | _ => []
  end.

(** The handle snapshots received from the remote service, in order. *)
Definition handles (tr : list Event) : list Operation.t :=
  flat_map handleOf tr.

(** The latest handle received. *)
Definition lastHandle (tr : list Event) : option Operation.t :=
  match rev (handles tr) with
  | [] => None
  | operation :: _ => Some operation
  end.

Definition isStatusRequest (e : Event) : bool :=
  match e with
  | GetVideosOperation _ _ => true
  | _ => false
  end.

Definition receivedDone (e : Event) : bool :=
  existsb Operation.done (handleOf e).

(** No status request is issued once a handle with [done = true] has been
    received ([seenDone] tells whether one was received before [tr]). *)
Fixpoint pollsStopped (seenDone : bool) (tr : list Event) : bool :=
  match tr with
  | [] => true
  | e :: tr' =>
      negb (seenDone && isStatusRequest e)
      && pollsStopped (seenDone || receivedDone e) tr'
  end.

Definition creationRequestOf (e : Event) : list GenerateVideos.Parameters :=
  match e with
  | GenerateVideos params _ => [params]
  | _ => []
  end.

(** The creation requests sent to the remote service, in order. *)
Definition creationRequests (tr : list Event) : list GenerateVideos.Parameters :=
  flat_map creationRequestOf tr.

Definition isRemoteRequest (e : Event) : bool :=
  match e with
  | GenerateVideos _ _ | GetVideosOperation _ _ => true
  | _ => false
  end.

Definition isCredentialCall (e : Event) : bool :=
  match e with
  | HasSelectedApiKey _ | OpenSelectKey _ => true
  | _ => false
  end.

(** The four conditions of the workflow state. *)
Definition busy (vs : VideoState.t) : bool := VideoState.isLoading vs.

Definition hasResult (vs : VideoState.t) : bool :=
  match VideoState.videoUrl vs with Some _ => true | None => false end.

Definition hasError (vs : VideoState.t) : bool :=
  match VideoState.error vs with Some _ => true | None => false end.

Definition idle (vs : VideoState.t) : bool :=
  negb (busy vs) && negb (hasResult vs) && negb (hasError vs).

Definition conditionsHolding (vs : VideoState.t) : nat :=
  Nat.b2n (busy vs) + Nat.b2n (hasResult vs) + Nat.b2n (hasError vs) + Nat.b2n (idle vs).

Definition exactlyOne (vs : VideoState.t) : Prop := conditionsHolding vs = 1.

(** The states of the controller's state machine that the view can rest in. *)
Definition Failed (vs : VideoState.t) : Prop :=
  busy vs = false /\ hasResult vs = false /\ hasError vs = true.

Definition Succeeded (vs : VideoState.t) : Prop :=
  busy vs = false /\ hasResult vs = true /\ hasError vs = false.

Definition Idle (vs : VideoState.t) : Prop := idle vs = true.

(* ================================================================= *)
(** ** components/FileUpload.tsx *)

Module FileUpload.

Inductive Effect : Type :=
| PreventDefault              (* e.preventDefault() *)
| SetIsDragging (b : bool)    (* setIsDragging(b) *)
| OnFileSelect (file : File.t).   (* onFileSelect(file) *)

(** [files] is [e.dataTransfer.files]. *)
Definition handleDrop (files : option (list File.t)) : list Effect :=
  [PreventDefault; SetIsDragging false]
  ++ match files with
     | Some (file :: _) =>
         if Js.startsWith (File.type file) "image/" then [OnFileSelect file] else []
     | _ => []
     end.

(** [files] is [e.target.files]. *)
Definition handleFileChange (files : option (list File.t)) : list Effect :=
  match files with
  | Some (file :: _) => [OnFileSelect file]
  | _ => []
  end.

Definition selectedOf (e : Effect) : list File.t :=
  match e with
  | OnFileSelect file => [file]
  | _ => []
  end.

(** The files [onFileSelect] was invoked with. *)
Definition selected (effects : list Effect) : list File.t :=
  flat_map selectedOf effects.

(** The size the widget's caption advertises as the maximum: 10MB. *)
Definition ADVISORY_MAX_BYTES : N := 10 * 1024 * 1024.

End FileUpload.

(* ================================================================= *)
(** ** components/Button.tsx and the App component *)

(** [disabled={disabled || isLoading}]. *)
Definition Button_disabled (disabled isLoading : bool) : bool := disabled || isLoading.

Module App.

(** The component's state, and [inflight]: for every call of
    [handleGenerate] made so far, the state updates it has yet to
    perform when its awaited promises settle. *)
Record t : Type := {
  file : option File.t;
  prompt : string;
  aspectRatio : AspectRatio;
  videoState : VideoState.t;
  inflight : list (list StateUpdate)
}.

Definition init : t :=
  {| file := None;
     prompt := "";
     aspectRatio := LANDSCAPE;
     videoState := initialVideoState;
     inflight := [] |}.

Definition setFile (f : File.t) (s : t) : t :=
  {| file := Some f; prompt := prompt s; aspectRatio := aspectRatio s;
     videoState := videoState s; inflight := inflight s |}.

Definition setPrompt (p : string) (s : t) : t :=
  {| file := file s; prompt := p; aspectRatio := aspectRatio s;
     videoState := videoState s; inflight := inflight s |}.

Definition setAspectRatio (a : AspectRatio) (s : t) : t :=
  {| file := file s; prompt := prompt s; aspectRatio := a;
     videoState := videoState s; inflight := inflight s |}.

Definition withVideoState (vs : VideoState.t) (pending : list (list StateUpdate)) (s : t) : t :=
  {| file := file s; prompt := prompt s; aspectRatio := aspectRatio s;
     videoState := vs; inflight := pending |}.

(** The Generate button: [disabled={!file} isLoading={videoState.isLoading}]. *)
Definition generateDisabled (s : t) : bool :=
  Button_disabled (match file s with Some _ => false | None => true end)
                  (VideoState.isLoading (videoState s)).

(** The error pane with its dismiss button is rendered when
    [videoState.error] is truthy. *)
Definition errorShown (s : t) : bool :=
  match VideoState.error (videoState s) with
  | Some message => Js.truthy message
  | None => false
  end.

(** A click on the Generate button runs [handleGenerate]: its first
    state update is performed before the handler first awaits; the
    later ones are performed as the awaited promises settle. *)
Definition clickGenerate (w : World) (s : t) : t :=
  match stateUpdates (trace w (file s) (prompt s) (aspectRatio s)) with
  | [] => s
  | u :: pending =>
      withVideoState (applyUpdate u (videoState s)) (pending :: inflight s) s
  end.

(** The dismiss button: [setVideoState(prev => ({ ...prev, error: null }))]. *)
Definition dismiss (s : t) : t :=
  withVideoState (applyUpdate ClearError (videoState s)) (inflight s) s.

Inductive step : t -> t -> Prop :=
| step_selectFile (s : t) (f : File.t) :
    step s (setFile f s)
| step_setPrompt (s : t) (p : string) :
    step s (setPrompt p s)
| step_setAspectRatio (s : t) (a : AspectRatio) :
    step s (setAspectRatio a s)
| step_clickGenerate (s : t) (w : World) :
    generateDisabled s = false ->
    step s (clickGenerate w s)
| step_resume (s : t) (before after : list (list StateUpdate))
              (u : StateUpdate) (pending : list StateUpdate) :
    inflight s = before ++ (u :: pending) :: after ->
    step s (withVideoState (applyUpdate u (videoState s))
                           (before ++ pending :: after) s)
| step_dismiss (s : t) :
    errorShown s = true ->
    step s (dismiss s).

Inductive reachable : t -> Prop :=
| reachable_init : reachable init
| reachable_step (s s' : t) : reachable s -> step s s' -> reachable s'.

End App.

(* ================================================================= *)
(** ** Vocabulary of the statements *)

(** None of the effects is a request to the remote service. *)
Definition noRemote (tr : list Event) : bool :=
  forallb (fun e => negb (isRemoteRequest e)) tr.

(** A done handle was received somewhere in [tr]. *)
Definition sawDone (tr : list Event) : bool := existsb receivedDone tr.

(** [m] appends the same effects and settles the same way whatever was
    logged before. *)
Definition framed {A : Type} (m : Async A) : Prop :=
  forall log, m log = (log ++ fst (m []), snd (m [])).

(** The effects of one iteration of the polling loop. *)
Definition pollPrefix (operation : Operation.t) (reply : Promise Operation.t) : list Event :=
  [SetTimeout 5000; ConsoleLog "Polling operation status...";
   GetVideosOperation operation reply].

(** The value [fileToGenerativePart] resolves with when the reader
    delivers [base64String]. *)
Definition generativePartOf (file : File.t) (base64String : string) : GenerativePart.t :=
  {| GenerativePart.mimeType := File.type file;
     GenerativePart.data := nth_error (Js.split "," base64String) 1 |}.

(** How a promise that did not resolve propagates through [await]. *)
Definition propagate {A B : Type} (p : Promise A) : Promise B :=
  match p with
  | Rejected e => Rejected e
  | _ => Pending
  end.

(** The effects [m] adds to [log]. *)
Definition effects {A : Type} (m : Async A) (log : list Event) : list Event :=
  skipn (length log) (fst (m log)).

(** The message the catch block puts in the workflow state. *)
Definition surfacedError (error : JsError.t) : string :=
  if Js.includes (errorMessageOf error) ENTITY_NOT_FOUND
  then KEY_INVALID_MESSAGE
  else errorMessageOf error.

(** The credential reselection attempted by the catch block. *)
Definition reselection (w : World) (log : list Event) : list Event :=
  match aistudio w with
  | Some studio => [OpenSelectKey (openSelectKey studio (countOpenSelectKey log))]
  | None => []
  end.

(** What the catch block adds to the log, whichever branch it takes. *)
Definition failureEffects (error : JsError.t) (evs : list Event) : Prop :=
  noRemote evs = true /\ stateUpdates evs = [Fail (surfacedError error)].

(** The three ways a call of [handleGenerate] with a file unfolds: it stays
    in the key check forever, the key check throws, or the service is
    called and resolves, throws or stays pending. *)
Inductive RunShape
    (w : World) (file : File.t) (prompt : string) (aspectRatio : AspectRatio)
  : list Event -> Prop :=
| run_keyPending (keyEvs : list Event) :
    noRemote keyEvs = true -> stateUpdates keyEvs = [] ->
    RunShape w file prompt aspectRatio
      (SetVideoState (Replace startState) :: keyEvs)
| run_keyFailed (keyEvs errEvs : list Event) (error : JsError.t) :
    noRemote keyEvs = true -> stateUpdates keyEvs = [] ->
    failureEffects error errEvs ->
    RunShape w file prompt aspectRatio
      (SetVideoState (Replace startState) :: keyEvs ++ errEvs)
| run_service (keyEvs tail : list Event) :
    noRemote keyEvs = true -> stateUpdates keyEvs = [] ->
    match snd (generateVeoVideo w file prompt aspectRatio []) with
    | Resolved url => tail = [SetVideoState (Replace (doneState url))]
    | Rejected error => failureEffects error tail
    | Pending => tail = []
    end ->
    RunShape w file prompt aspectRatio
      (SetVideoState (Replace startState) :: keyEvs
         ++ [SetVideoState (Progress PROGRESS_MESSAGE)]
         ++ fst (generateVeoVideo w file prompt aspectRatio [])
         ++ tail).

(** The text surfaced for a remote error payload: the remote message, or
    the generic fallback when the service omits one. *)
Definition remoteFailureText (e : Operation.Error) : string :=
  Js.orElse (Operation.message e) "Unknown error".

(** The message of the error thrown for a remote error payload. *)
Definition remoteFailure (e : Operation.Error) : string :=
  ("Video generation failed: " ++ remoteFailureText e)%string.

(** The completed handle carries no result locator. *)
Definition noLocator (operation : Operation.t) : bool :=
  match videoUri operation with
  | Some u => negb (Js.truthy u)
  | None => true
  end.

(** C4 as the claim states it: whenever the final handle is done and carries
    an error payload, the workflow ends Failed and the surfaced message
    carries the remote-supplied text (or the generic fallback). *)
Definition C4_as_stated : Prop :=
  forall (w : World) (file : File.t) (prompt : string) (aspectRatio : AspectRatio)
         (vs : VideoState.t) (operation : Operation.t) (e : Operation.Error),
    let tr := trace w (Some file) prompt aspectRatio in
    lastHandle tr = Some operation ->
    Operation.done operation = true ->
    Operation.error operation = Some e ->
    Failed (finalState vs tr)
    /\ exists surfaced,
        VideoState.error (finalState vs tr) = Some surfaced
        /\ Js.includes surfaced (remoteFailureText e) = true.

(** C6 as the claim states it: on every failure whose message contains the
    signature, the handler surfaces the fixed message and invokes
    credential reselection exactly once, swallowing its failure. *)
Definition C6_as_stated : Prop :=
  forall (w : World) (error : JsError.t) (log : list Event),
    Js.includes (errorMessageOf error) ENTITY_NOT_FOUND = true ->
    let evs := effects (handleError w error) log in
    stateUpdates evs = [Fail KEY_INVALID_MESSAGE]
    /\ countOpenSelectKey evs = 1
    /\ forall e, snd (handleError w error log) <> Rejected e.

(** The updates a call of [handleGenerate] may still owe after its first:
    progress messages, then at most one last update, which either installs
    a result or fails. *)
Fixpoint pendingOK (q : list StateUpdate) : bool :=
  match q with
  | [] => true
  | Progress _ :: q' => pendingOK q'
  | [Replace next] => negb (busy next) && hasResult next && negb (hasError next)
  | [Fail _] => true
  | _ => false
  end.

Definition isLive (q : list StateUpdate) : bool :=
  match q with
  | [] => false
  | _ :: _ => true
  end.

(** The calls that still owe a state update. *)
Definition live (s : App.t) : list (list StateUpdate) :=
  filter isLive (App.inflight s).

Definition busyOnly (vs : VideoState.t) : Prop :=
  VideoState.isLoading vs = true
  /\ VideoState.videoUrl vs = None
  /\ VideoState.error vs = None.

(** The inductive invariant: the state satisfies exactly one condition,
    every call in flight owes a well-formed tail of updates, and at most
    one call owes anything, in which case the state is busy and nothing
    else. *)
Record Inv (s : App.t) : Prop := {
  inv_exactly : exactlyOne (App.videoState s);
  inv_pending : Forall (fun q => pendingOK q = true) (App.inflight s);
  inv_single : live s = []
               \/ exists q, live s = [q] /\ busyOnly (App.videoState s)
}.

(* ================================================================= *)
(** ** Example inputs *)

Definition landscape_jpg : File.t :=
  {| File.name := "landscape.jpg"; File.type := "image/jpeg"; File.size := 204800 |}.

(** A handle still in progress. *)
Definition opRunning : Operation.t :=
  {| Operation.done := false; Operation.error := None; Operation.response := None |}.

(** A completed handle with result locator [u]. *)
Definition opResult (u : string) : Operation.t :=
  {| Operation.done := true;
     Operation.error := None;
     Operation.response :=
       Some {| Operation.generatedVideos :=
                 Some [{| Operation.video := Some {| Operation.uri := Some u |} |}] |} |}.

(** A completed handle with an error payload. *)
Definition opError (message : option string) : Operation.t :=
  {| Operation.done := true;
     Operation.error := Some {| Operation.message := message |};
     Operation.response := None |}.

(** A completed handle with neither error nor result. *)
Definition opEmpty : Operation.t :=
  {| Operation.done := true; Operation.error := None; Operation.response := None |}.

(** A host whose key is selected and whose selector is declined whenever
    it is opened. *)
Definition studioDeclining : AIStudio :=
  {| hasSelectedApiKey := Resolved true;
     openSelectKey := fun _ => Rejected (newError "cancelled") |}.

Definition worldWith
    (studio : option AIStudio) (first : Operation.t) (polls : list (Promise Operation.t))
  : World :=
  {| aistudio := studio;
     API_KEY := Some "CREDENTIAL";
     readAsDataURL := fun _ => Resolved "data:image/jpeg;base64,QUJD";
     generateVideos := fun _ => Resolved first;
     getVideosOperation := polls |}.

(** Handles [done=false, done=false, done=true with result]; a further
    answer is available but must never be asked for. *)
Definition world_success : World :=
  worldWith (Some studioDeclining) opRunning
            [Resolved opRunning; Resolved (opResult "https://x/video1"); Resolved opRunning].

(** Handles [done=true, error.message = "Requested entity was not found"]. *)
Definition world_stale : World :=
  worldWith (Some studioDeclining) (opError (Some "Requested entity was not found")) [].

(** The same answers in a host without [window.aistudio]. *)
Definition world_stale_nohost : World :=
  worldWith None (opError (Some "Requested entity was not found")) [].

Definition world_quota : World :=
  worldWith (Some studioDeclining) opRunning [Resolved (opError (Some "Quota exceeded"))].

Definition world_empty : World :=
  worldWith (Some studioDeclining) opRunning [Resolved opEmpty].

(** The component after: select the image, click Generate, progress
    update, success update. *)
Definition example_selected : App.t := App.setFile landscape_jpg App.init.

Definition example_started : App.t := App.clickGenerate world_success example_selected.

Definition example_progress : App.t :=
  App.withVideoState
    (applyUpdate (Progress PROGRESS_MESSAGE) (App.videoState example_started))
    ([] ++ [Replace (doneState "https://x/video1&key=CREDENTIAL")] :: [])
    example_started.

Definition example_succeeded : App.t :=
  App.withVideoState
    (applyUpdate (Replace (doneState "https://x/video1&key=CREDENTIAL"))
                 (App.videoState example_progress))
    ([] ++ [] :: [])
    example_progress.

Definition example_failed : App.t :=
  App.withVideoState
    {| VideoState.isLoading := false;
       VideoState.progressMessage := PROGRESS_MESSAGE;
       VideoState.videoUrl := None;
       VideoState.error := Some "Video generation failed: Quota exceeded" |}
    []
    (App.setPrompt "slow pan to the left" example_selected).

(* ================================================================= *)
(** ** components/FileUpload.tsx: the drag handlers *)

(** [handleDragOver]: [e.preventDefault(); setIsDragging(true)]. *)
Definition handleDragOver : list FileUpload.Effect :=
  [FileUpload.PreventDefault; FileUpload.SetIsDragging true].

(** [handleDragLeave]: [e.preventDefault(); setIsDragging(false)]. *)
Definition handleDragLeave : list FileUpload.Effect :=
  [FileUpload.PreventDefault; FileUpload.SetIsDragging false].

(** The value of [isDragging] once the effects are performed. *)
Definition isDraggingAfter (dragging : bool) (effects : list FileUpload.Effect) : bool :=
  fold_left (fun d e => match e with
                        | FileUpload.SetIsDragging b => b
                        | _ => d
                        end)
            effects dragging.

(** [files[0]], undefined for a null or empty list. *)
Definition firstFile (files : option (list File.t)) : option File.t :=
  match files with
  | Some (file :: _) => Some file
  | _ => None
  end.

(* ================================================================= *)
(** ** App.tsx: what the result column renders *)

(** Truthiness of [x : string | null]. *)
Definition truthyOpt (x : option string) : bool :=
  match x with
  | Some s => Js.truthy s
  | None => false
  end.

(** [!videoState.isLoading && !videoState.videoUrl && !videoState.error]. *)
Definition emptyShown (vs : VideoState.t) : bool :=
  negb (VideoState.isLoading vs)
  && negb (truthyOpt (VideoState.videoUrl vs))
  && negb (truthyOpt (VideoState.error vs)).

(** [videoState.isLoading]. *)
Definition loadingShown (vs : VideoState.t) : bool := VideoState.isLoading vs.

(** [videoState.error]. *)
Definition errorPaneShown (vs : VideoState.t) : bool := truthyOpt (VideoState.error vs).

(** [videoState.videoUrl && !videoState.isLoading]. *)
Definition playerShown (vs : VideoState.t) : bool :=
  truthyOpt (VideoState.videoUrl vs) && negb (VideoState.isLoading vs).

(** The download link: [videoState.videoUrl]. *)
Definition downloadShown (vs : VideoState.t) : bool := truthyOpt (VideoState.videoUrl vs).

Definition panesShown (vs : VideoState.t) : nat :=
  Nat.b2n (emptyShown vs) + Nat.b2n (loadingShown vs)
  + Nat.b2n (errorPaneShown vs) + Nat.b2n (playerShown vs).

(* ================================================================= *)
(** ** Further vocabulary *)

(** The effects [generateVeoVideo] performs on the outside world. *)
Definition isServiceEffect (e : Event) : bool :=
  match e with
  | NewGoogleGenAI _ | ReadAsDataURL _ _ | GenerateVideos _ _
  | SetTimeout _ | GetVideosOperation _ _ => true
  | _ => false
  end.

(** The key check lets the run proceed: the host has no [window.aistudio],
    or a key is selected, or the first opening of the selector succeeds. *)
Definition keyCheckPasses (w : World) : bool :=
  match aistudio w with
  | None => true
  | Some studio =>
      match hasSelectedApiKey studio with
      | Resolved true => true
      | Resolved false =>
          match openSelectKey studio 0 with
          | Resolved _ => true
          | _ => false
          end
      | _ => false
      end
  end.

Definition KEY_REQUIRED_MESSAGE : string := "API Key selection is required to proceed.".

Definition UNEXPECTED_MESSAGE : string := "An unexpected error occurred".

(** The waits of the log, in milliseconds. *)
Definition timeoutOf (e : Event) : list N :=
  match e with
  | SetTimeout ms => [ms]
  | _ => []
  end.

Definition timeouts (tr : list Event) : list N := flat_map timeoutOf tr.

Definition statusRequests (tr : list Event) : nat := length (filter isStatusRequest tr).

(** The iterations of the polling loop: each asks for the status of the
    handle it holds, which is not done, and the next one holds the answer;
    an answer that is not a handle ends the loop. *)
Fixpoint chained (operation : Operation.t)
                 (iterations : list (Operation.t * Promise Operation.t)) : Prop :=
  match iterations with
  | [] => True
  | (requested, reply) :: rest =>
      requested = operation
      /\ Operation.done operation = false
      /\ match reply with
         | Resolved operation' => chained operation' rest
         | _ => rest = []
         end
  end.

Definition iterationEffects (iterations : list (Operation.t * Promise Operation.t))
  : list Event :=
  flat_map (fun it => pollPrefix (fst it) (snd it)) iterations.

(** The snapshots before the first done one. *)
Fixpoint notDonePrefix (snapshots : list Operation.t) : list Operation.t :=
  match snapshots with
  | [] => []
  | h :: rest => if Operation.done h then [] else h :: notDonePrefix rest
  end.

(** A field the view tests for truthiness is null or a non-empty text. *)
Definition nullOrTruthy (x : option string) : bool :=
  match x with
  | Some s => Js.truthy s
  | None => true
  end.

Definition renderable (vs : VideoState.t) : bool :=
  nullOrTruthy (VideoState.videoUrl vs) && nullOrTruthy (VideoState.error vs).

Definition renderableUpdate (u : StateUpdate) : bool :=
  match u with
  | Replace next => renderable next
  | Fail message => Js.truthy message
  | _ => true
  end.

(** The texts shown by the view are never empty, now or after any update
    still owed by a run in flight. *)
Definition Renderable (s : App.t) : Prop :=
  renderable (App.videoState s) = true
  /\ forallb (forallb renderableUpdate) (App.inflight s) = true.

(** The state updates a run ends with, by the outcome of the service call. *)
Definition outcomeUpdates (outcome : Promise string) : list StateUpdate :=
  match outcome with
  | Resolved url => [Replace (doneState url)]
  | Rejected error => [Fail (surfacedError error)]
  | Pending => []
  end.

(* ================================================================= *)
(** ** Further example inputs *)

(** A host in which no key is selected and the selector is declined. *)
Definition studioNoKey : AIStudio :=
  {| hasSelectedApiKey := Resolved false;
     openSelectKey := fun _ => Rejected (newError "cancelled") |}.

Definition world_declined : World := worldWith (Some studioNoKey) opRunning [].

(** The reader fails with an event that carries no message. *)
Definition world_unreadable : World :=
  {| aistudio := None;
     API_KEY := Some "CREDENTIAL";
     readAsDataURL := fun _ => Rejected {| JsError.message := None |};
     generateVideos := fun _ => Resolved opRunning;
     getVideosOperation := [] |}.



(** Three snapshots, none of them done. *)
Definition world_slow : World :=
  worldWith None opRunning [Resolved opRunning; Resolved opRunning].

(** The component after: select the image, click Generate, progress
    update, failure update, in [world_quota]. *)
Definition quota_started : App.t := App.clickGenerate world_quota example_selected.

Definition quota_progress : App.t :=
  App.withVideoState
    (applyUpdate (Progress PROGRESS_MESSAGE) (App.videoState quota_started))
    ([] ++ [Fail "Video generation failed: Quota exceeded"] :: [])
    quota_started.

Definition quota_failed : App.t :=
  App.withVideoState
    (applyUpdate (Fail "Video generation failed: Quota exceeded")
                 (App.videoState quota_progress))
    ([] ++ [] :: [])
    quota_progress.

(* ================================================================= *)
(** ** Observations distribute over concatenation of logs *)

Lemma stateUpdates_app (a b : list Event) :
  stateUpdates (a ++ b) = stateUpdates a ++ stateUpdates b.
Proof. apply flat_map_app. Qed.

Lemma handles_app (a b : list Event) :
  handles (a ++ b) = handles a ++ handles b.
Proof. apply flat_map_app. Qed.

Lemma creationRequests_app (a b : list Event) :
  creationRequests (a ++ b) = creationRequests a ++ creationRequests b.
Proof. apply flat_map_app. Qed.

Lemma last_cons {A : Type} (l : list A) (x d : A) : last (x :: l) d = last l x.
Proof.
  revert x d. induction l as [|y l IH]; intros x d; [reflexivity|].
  change (last (x :: y :: l) d) with (last (y :: l) d).
  now rewrite !IH.
Qed.

Lemma lastHandle_of_handles (tr : list Event) (h0 : Operation.t) (hs : list Operation.t) :
  handles tr = h0 :: hs -> lastHandle tr = Some (last hs h0).
Proof.
  unfold lastHandle. intros ->.
  destruct (exists_last (l := h0 :: hs)) as (front & x & E); [discriminate|].
  rewrite E, rev_app_distr. cbn [rev app].
  destruct hs as [|h hs].
  - cbn [last]. destruct front as [|y [|z front]]; cbn in E; congruence.
  - change (h0 :: h :: hs) with ([h0] ++ h :: hs) in E.
    destruct front as [|y front]; cbn in E; [destruct hs; discriminate|].
    injection E as -> E. rewrite E. now rewrite last_last.
Qed.

Lemma lastHandle_no_handles (tr : list Event) :
  handles tr = [] -> lastHandle tr = None.
Proof. unfold lastHandle. now intros ->. Qed.

Lemma noRemote_handles (tr : list Event) : noRemote tr = true -> handles tr = [].
Proof.
  induction tr as [|e tr IH]; [reflexivity|].
  cbn. rewrite andb_true_iff. intros [He Htr].
  unfold handles in *. cbn. rewrite (IH Htr).
  destruct e; try reflexivity; discriminate.
Qed.

Lemma noRemote_pollsStopped (tr : list Event) (seenDone : bool) :
  noRemote tr = true -> pollsStopped seenDone tr = true.
Proof.
  revert seenDone. induction tr as [|e tr IH]; intros seenDone; [reflexivity|].
  cbn. rewrite andb_true_iff. intros [He Htr].
  rewrite (IH _ Htr), andb_true_r.
  destruct e; try discriminate; cbn; now rewrite andb_false_r.
Qed.

Lemma pollsStopped_app (a b : list Event) (seenDone : bool) :
  pollsStopped seenDone (a ++ b)
  = pollsStopped seenDone a && pollsStopped (seenDone || sawDone a) b.
Proof.
  revert seenDone. induction a as [|e a IH]; intros seenDone; cbn.
  - now rewrite orb_false_r.
  - rewrite IH, andb_assoc, orb_assoc. reflexivity.
Qed.

Lemma noRemote_sawDone (tr : list Event) : noRemote tr = true -> sawDone tr = false.
Proof.
  induction tr as [|e tr IH]; [reflexivity|].
  cbn. rewrite andb_true_iff. intros [He Htr].
  unfold sawDone in IH. rewrite (IH Htr), orb_false_r.
  destruct e; try reflexivity; discriminate.
Qed.

Lemma pollsStopped_after_done (tr : list Event) :
  pollsStopped true tr = true -> Forall (fun e => isStatusRequest e = false) tr.
Proof.
  induction tr as [|e tr IH]; cbn; [constructor|].
  rewrite andb_true_iff, negb_true_iff. intros [He Htr]. auto.
Qed.

(** What [pollsStopped] means: in a log it accepts, nothing that follows
    the receipt of a done handle is a status request. *)
Lemma pollsStopped_split (pre post : list Event) (e : Event) (seenDone : bool) :
  pollsStopped seenDone (pre ++ e :: post) = true ->
  receivedDone e = true ->
  Forall (fun e' => isStatusRequest e' = false) post.
Proof.
  rewrite pollsStopped_app. cbn [pollsStopped].
  rewrite !andb_true_iff. intros (_ & _ & Hpost) He.
  rewrite He, orb_true_r in Hpost.
  now apply pollsStopped_after_done.
Qed.

(* ================================================================= *)
(** ** Computations that do not read the log *)

Lemma framed_ret {A : Type} (a : A) : framed (ret a).
Proof. intros log. cbn. now rewrite app_nil_r. Qed.

Lemma framed_throw {A : Type} (e : JsError.t) : framed (@throw A e).
Proof. intros log. cbn. now rewrite app_nil_r. Qed.

Lemma framed_emit (e : Event) : framed (emit e).
Proof. intros log. reflexivity. Qed.

Lemma framed_await {A : Type} (call : Promise A -> Event) (p : Promise A) :
  framed (await call p).
Proof. intros log. reflexivity. Qed.

Lemma framed_bind {A B : Type} (m : Async A) (k : A -> Async B) :
  framed m -> (forall a, framed (k a)) -> framed (bind m k).
Proof.
  intros Hm Hk log. unfold bind.
  rewrite (Hm log). destruct (m []) as [evs [a|e|]]; cbn [fst snd];
    try reflexivity.
  rewrite (Hk a (log ++ evs)), (Hk a evs). cbn [fst snd].
  now rewrite app_assoc.
Qed.

Lemma framed_pollLoop (replies : list (Promise Operation.t)) (operation : Operation.t) :
  framed (pollLoop replies operation).
Proof.
  revert operation. induction replies as [|reply replies IH]; intros operation;
    cbn [pollLoop]; destruct (Operation.done operation);
    auto using framed_ret, framed_bind, framed_emit, framed_await.
Qed.

Lemma framed_resolveOperation (w : World) (operation : Operation.t) :
  framed (resolveOperation w operation).
Proof.
  unfold resolveOperation.
  destruct (Operation.error operation); [apply framed_throw|].
  destruct (videoUri operation) as [u|]; [|apply framed_throw].
  destruct (Js.truthy u); [apply framed_ret | apply framed_throw].
Qed.

Lemma framed_generateVeoVideo
    (w : World) (imageFile : File.t) (prompt : string) (aspectRatio : AspectRatio) :
  framed (generateVeoVideo w imageFile prompt aspectRatio).
Proof.
  unfold generateVeoVideo, fileToGenerativePart.
  repeat (apply framed_bind; [|intros ?]);
    auto using framed_ret, framed_emit, framed_await, framed_pollLoop,
      framed_resolveOperation.
Qed.

(* ================================================================= *)
(** ** The polling loop *)

Lemma pollLoop_done (replies : list (Promise Operation.t)) (operation : Operation.t) :
  Operation.done operation = true ->
  pollLoop replies operation [] = ([], Resolved operation).
Proof. intros H. destruct replies; cbn [pollLoop]; now rewrite H. Qed.

Lemma pollLoop_exhausted (operation : Operation.t) :
  Operation.done operation = false ->
  pollLoop [] operation [] = (pollPrefix operation Pending, Pending).
Proof. intros H. cbn [pollLoop]. now rewrite H. Qed.

Lemma pollLoop_step
    (reply : Promise Operation.t) (replies : list (Promise Operation.t))
    (operation : Operation.t) :
  Operation.done operation = false ->
  pollLoop (reply :: replies) operation []
  = match reply with
    | Resolved operation' =>
        (pollPrefix operation reply ++ fst (pollLoop replies operation' []),
         snd (pollLoop replies operation' []))
    | Rejected e => (pollPrefix operation reply, Rejected e)
    | Pending => (pollPrefix operation reply, Pending)
    end.
Proof.
  intros H. cbn [pollLoop]. rewrite H.
  destruct reply as [operation'|e|]; try reflexivity.
  unfold bind, emit, await. cbn [app].
  now rewrite framed_pollLoop.
Qed.

Lemma pollLoop_quiet (replies : list (Promise Operation.t)) (operation : Operation.t) :
  stateUpdates (fst (pollLoop replies operation [])) = []
  /\ creationRequests (fst (pollLoop replies operation [])) = [].
Proof.
  revert operation. induction replies as [|reply replies IH]; intros operation;
    destruct (Operation.done operation) eqn:D.
  - now rewrite pollLoop_done.
  - now rewrite pollLoop_exhausted.
  - now rewrite pollLoop_done.
  - rewrite pollLoop_step by assumption.
    destruct reply as [operation'|e|]; try (split; reflexivity).
    cbn [fst]. rewrite stateUpdates_app, creationRequests_app.
    destruct (IH operation') as [-> ->]. split; reflexivity.
Qed.

(** The loop issues no status request once it holds a done handle. *)
Lemma pollLoop_stops (replies : list (Promise Operation.t)) (operation : Operation.t) :
  pollsStopped (Operation.done operation) (fst (pollLoop replies operation [])) = true.
Proof.
  revert operation. induction replies as [|reply replies IH]; intros operation;
    destruct (Operation.done operation) eqn:D.
  - now rewrite pollLoop_done.
  - now rewrite pollLoop_exhausted.
  - now rewrite pollLoop_done.
  - rewrite pollLoop_step by assumption.
    destruct reply as [operation'|e|]; try reflexivity.
    cbn [fst]. rewrite pollsStopped_app.
    cbn. rewrite !orb_false_r. apply IH.
Qed.

(** The loop returns exactly when the latest handle is done, and returns
    that handle; otherwise the latest handle is not done. *)
Lemma pollLoop_exit (replies : list (Promise Operation.t)) (operation : Operation.t) :
  let latest := last (handles (fst (pollLoop replies operation []))) operation in
  match snd (pollLoop replies operation []) with
  | Resolved operation' => latest = operation' /\ Operation.done operation' = true
  | _ => Operation.done latest = false
  end.
Proof.
  revert operation. induction replies as [|reply replies IH]; intros operation;
    destruct (Operation.done operation) eqn:D; cbn zeta.
  - rewrite pollLoop_done by assumption. now split.
  - now rewrite pollLoop_exhausted.
  - rewrite pollLoop_done by assumption. now split.
  - rewrite pollLoop_step by assumption.
    destruct reply as [operation'|e|]; try assumption.
    cbn [fst snd]. rewrite handles_app.
    change (handles (pollPrefix operation (Resolved operation'))) with [operation'].
    specialize (IH operation'). cbn zeta in IH.
    change ([operation'] ++ ?l) with (operation' :: l).
    rewrite last_cons. exact IH.
Qed.

(* ================================================================= *)
(** ** One call of generateVeoVideo *)

Lemma generateVeoVideo_unfold
    (w : World) (imageFile : File.t) (prompt : string) (aspectRatio : AspectRatio) :
  generateVeoVideo w imageFile prompt aspectRatio []
  = let reading := readAsDataURL w imageFile in
    let read := [NewGoogleGenAI (API_KEY w); ReadAsDataURL imageFile reading] in
    match reading with
    | Resolved base64String =>
        let params :=
          generateVideosParameters (generativePartOf imageFile base64String)
                                   prompt aspectRatio in
        let creating := generateVideos w params in
        let created :=
          read ++ [ConsoleLog "Starting video generation...";
                   GenerateVideos params creating] in
        match creating with
        | Resolved operation =>
            let polled := pollLoop (getVideosOperation w) operation [] in
            (created
               ++ [ConsoleLog "Operation created, polling for completion..."]
               ++ fst polled,
             match snd polled with
             | Resolved operation' => snd (resolveOperation w operation' [])
             | other => propagate other
             end)
        | other => (created, propagate other)
        end
    | other => (read, propagate other)
    end.
Proof.
  unfold generateVeoVideo, fileToGenerativePart, bind, emit, await, ret.
  cbn [app]. cbv zeta.
  destruct (readAsDataURL w imageFile) as [base64String|e|]; try reflexivity.
  fold (generativePartOf imageFile base64String).
  destruct (generateVideos w _) as [operation|e|]; try reflexivity.
  rewrite framed_pollLoop.
  destruct (pollLoop (getVideosOperation w) operation []) as [evs [operation'|e|]];
    cbn [fst snd app propagate]; try reflexivity.
  rewrite framed_resolveOperation.
  replace (fst (resolveOperation w operation' [])) with (@nil Event).
  - now rewrite app_nil_r.
  - unfold resolveOperation.
    destruct (Operation.error operation'); [reflexivity|].
    destruct (videoUri operation') as [u|]; [|reflexivity].
    destruct (Js.truthy u); reflexivity.
Qed.

(** [generateVeoVideo] never calls [setVideoState]. *)
Lemma generateVeoVideo_stateUpdates
    (w : World) (imageFile : File.t) (prompt : string) (aspectRatio : AspectRatio) :
  stateUpdates (fst (generateVeoVideo w imageFile prompt aspectRatio [])) = [].
Proof.
  rewrite generateVeoVideo_unfold. cbv zeta.
  destruct (readAsDataURL w imageFile) as [base64String|e|]; try reflexivity.
  destruct (generateVideos w _) as [operation|e|]; try reflexivity.
  cbn [fst]. rewrite !stateUpdates_app.
  now destruct (pollLoop_quiet (getVideosOperation w) operation) as [-> _].
Qed.

(** It sends one creation request once the image is read, none otherwise. *)
Lemma generateVeoVideo_creationRequests
    (w : World) (imageFile : File.t) (prompt : string) (aspectRatio : AspectRatio) :
  creationRequests (fst (generateVeoVideo w imageFile prompt aspectRatio []))
  = match readAsDataURL w imageFile with
    | Resolved base64String =>
        [generateVideosParameters (generativePartOf imageFile base64String)
                                  prompt aspectRatio]
    | _ => []
    end.
Proof.
  rewrite generateVeoVideo_unfold. cbv zeta.
  destruct (readAsDataURL w imageFile) as [base64String|e|]; try reflexivity.
  destruct (generateVideos w _) as [operation|e|]; try reflexivity.
  cbn [fst]. rewrite !creationRequests_app.
  now destruct (pollLoop_quiet (getVideosOperation w) operation) as [_ ->].
Qed.

Lemma generateVeoVideo_pollsStopped
    (w : World) (imageFile : File.t) (prompt : string) (aspectRatio : AspectRatio) :
  pollsStopped false (fst (generateVeoVideo w imageFile prompt aspectRatio [])) = true.
Proof.
  rewrite generateVeoVideo_unfold. cbv zeta.
  destruct (readAsDataURL w imageFile) as [base64String|e|]; try reflexivity.
  destruct (generateVideos w _) as [operation|e|]; try reflexivity.
  cbn [fst]. rewrite !pollsStopped_app. cbn.
  rewrite !orb_false_r, andb_false_r. apply pollLoop_stops.
Qed.

(** When the latest handle received is done, the call settles as the
    statements after the loop decide for that handle. *)
Lemma generateVeoVideo_settles
    (w : World) (imageFile : File.t) (prompt : string) (aspectRatio : AspectRatio)
    (operation : Operation.t) :
  lastHandle (fst (generateVeoVideo w imageFile prompt aspectRatio [])) = Some operation ->
  Operation.done operation = true ->
  snd (generateVeoVideo w imageFile prompt aspectRatio [])
  = snd (resolveOperation w operation []).
Proof.
  rewrite generateVeoVideo_unfold. cbv zeta.
  destruct (readAsDataURL w imageFile) as [base64String|e|]; try discriminate.
  destruct (generateVideos w _) as [operation0|e|]; try discriminate.
  cbn [fst snd]. intros Hlast Hdone.
  erewrite lastHandle_of_handles in Hlast
    by (rewrite !handles_app; cbn [handles flat_map handleOf app]; reflexivity).
  injection Hlast as Hlast.
  pose proof (pollLoop_exit (getVideosOperation w) operation0) as Hexit.
  cbn zeta in Hexit. rewrite Hlast in Hexit.
  destruct (snd (pollLoop (getVideosOperation w) operation0 [])) as [operation'|e|].
  - destruct Hexit as [-> _]. reflexivity.
  - congruence.
  - congruence.
Qed.

(** The call resolves only on a done handle. *)
Lemma generateVeoVideo_resolved
    (w : World) (imageFile : File.t) (prompt : string) (aspectRatio : AspectRatio)
    (url : string) :
  snd (generateVeoVideo w imageFile prompt aspectRatio []) = Resolved url ->
  exists operation,
    lastHandle (fst (generateVeoVideo w imageFile prompt aspectRatio [])) = Some operation
    /\ Operation.done operation = true.
Proof.
  rewrite generateVeoVideo_unfold. cbv zeta.
  destruct (readAsDataURL w imageFile) as [base64String|e|]; try discriminate.
  destruct (generateVideos w _) as [operation0|e|]; try discriminate.
  cbn [fst snd]. intros Hres.
  erewrite lastHandle_of_handles
    by (rewrite !handles_app; cbn [handles flat_map handleOf app]; reflexivity).
  pose proof (pollLoop_exit (getVideosOperation w) operation0) as Hexit.
  cbn zeta in Hexit.
  destruct (snd (pollLoop (getVideosOperation w) operation0 [])) as [operation'|e|];
    try discriminate.
  destruct Hexit as [-> Hdone]. eauto.
Qed.

(* ================================================================= *)
(** ** One call of handleGenerate *)

Arguments generateVeoVideo : simpl never.

Lemma skipn_length_app {A : Type} (a b : list A) : skipn (length a) (a ++ b) = b.
Proof. induction a as [|x a IH]; [reflexivity | exact IH]. Qed.

Lemma countOpenSelectKey_app (a b : list Event) :
  countOpenSelectKey (a ++ b) = countOpenSelectKey a + countOpenSelectKey b.
Proof.
  induction a as [|e a IH]; [reflexivity|].
  destruct e; cbn; now rewrite IH.
Qed.

Lemma handleError_stale (w : World) (error : JsError.t) (log : list Event) :
  Js.includes (errorMessageOf error) ENTITY_NOT_FOUND = true ->
  fst (handleError w error log)
  = log ++ [ConsoleError error; SetVideoState (Fail KEY_INVALID_MESSAGE)]
        ++ reselection w log
  /\ forall e, snd (handleError w error log) <> Rejected e.
Proof.
  intros Hsig. unfold handleError, reselection, bind, emit, setVideoState, emit.
  rewrite Hsig.
  destruct (aistudio w) as [studio|]; cbn.
  - unfold tryCatch, callOpenSelectKey, await.
    rewrite !countOpenSelectKey_app. cbn. rewrite !Nat.add_0_r.
    destruct (openSelectKey studio (countOpenSelectKey log)) as [[]|e|]; cbn;
      rewrite <- !app_assoc; split; try reflexivity; discriminate.
  - rewrite <- !app_assoc. split; [reflexivity | discriminate].
Qed.

Lemma handleError_other (w : World) (error : JsError.t) (log : list Event) :
  Js.includes (errorMessageOf error) ENTITY_NOT_FOUND = false ->
  handleError w error log
  = (log ++ [ConsoleError error; SetVideoState (Fail (errorMessageOf error))],
     Resolved tt).
Proof.
  intros Hsig. unfold handleError, bind, emit, setVideoState, emit.
  rewrite Hsig. now rewrite <- app_assoc.
Qed.

Lemma handleError_effects (w : World) (error : JsError.t) (log : list Event) :
  exists evs,
    fst (handleError w error log) = log ++ evs /\ failureEffects error evs.
Proof.
  unfold failureEffects, surfacedError.
  destruct (Js.includes (errorMessageOf error) ENTITY_NOT_FOUND) eqn:Hsig.
  - destruct (handleError_stale w error log Hsig) as [-> _].
    eexists; split; [reflexivity|].
    unfold reselection. destruct (aistudio w); split; reflexivity.
  - rewrite (handleError_other w error log Hsig).
    eexists; split; [reflexivity|]. split; reflexivity.
Qed.

Lemma checkApiKey_effects (w : World) (log : list Event) :
  exists evs,
    fst (checkApiKey w log) = log ++ evs
    /\ noRemote evs = true /\ stateUpdates evs = [].
Proof.
  unfold checkApiKey.
  destruct (aistudio w) as [studio|]; cbn.
  - unfold bind, await, tryCatch, callOpenSelectKey, await.
    destruct (hasSelectedApiKey studio) as [[|]|e|]; cbn;
      try (eexists; split; [reflexivity|]; split; reflexivity).
    destruct (openSelectKey studio _) as [[]|e|]; cbn; rewrite <- app_assoc;
      eexists; split; try reflexivity; split; reflexivity.
  - exists []. now rewrite app_nil_r.
Qed.

Lemma trace_shape
    (w : World) (file : File.t) (prompt : string) (aspectRatio : AspectRatio) :
  RunShape w file prompt aspectRatio (trace w (Some file) prompt aspectRatio).
Proof.
  unfold trace, handleGenerate, bind at 1, setVideoState at 1, emit at 1, tryCatch.
  cbn [app]. unfold bind at 1.
  destruct (checkApiKey_effects w [SetVideoState (Replace startState)])
    as (keyEvs & Ekey & Hquiet & Hupd).
  destruct (checkApiKey w [SetVideoState (Replace startState)]) as [log1 r1].
  cbn [fst] in Ekey. subst log1. cbn [app].
  destruct r1 as [[]|error|].
  - unfold bind at 1, setVideoState at 1, emit at 1. unfold bind at 1.
    rewrite framed_generateVeoVideo.
    pose proof (run_service w file prompt aspectRatio keyEvs) as Hshape.
    destruct (generateVeoVideo w file prompt aspectRatio []) as [genEvs [url|error|]];
      cbn [fst snd] in *.
    + unfold setVideoState, emit. cbn [fst].
      specialize (Hshape _ Hquiet Hupd eq_refl).
      rewrite <- !app_assoc. exact Hshape.
    + destruct (handleError_effects w error
                  (((SetVideoState (Replace startState) :: keyEvs)
                      ++ [SetVideoState (Progress PROGRESS_MESSAGE)]) ++ genEvs))
        as (errEvs & -> & Herr).
      specialize (Hshape _ Hquiet Hupd Herr).
      rewrite <- !app_assoc. exact Hshape.
    + specialize (Hshape [] Hquiet Hupd eq_refl).
      rewrite app_nil_r in Hshape. rewrite <- !app_assoc. exact Hshape.
  - destruct (handleError_effects w error (SetVideoState (Replace startState) :: keyEvs))
      as (errEvs & -> & Herr).
    now apply run_keyFailed with (error := error).
  - now apply run_keyPending.
Qed.

(** The state updates of a call and the latest handle it received. *)
Lemma run_summary
    (w : World) (file : File.t) (prompt : string) (aspectRatio : AspectRatio) :
  let tr := trace w (Some file) prompt aspectRatio in
  let service := generateVeoVideo w file prompt aspectRatio [] in
  pollsStopped false tr = true
  /\ ((lastHandle tr = None
       /\ (stateUpdates tr = [Replace startState]
           \/ exists error,
               stateUpdates tr = [Replace startState; Fail (surfacedError error)]))
      \/ (lastHandle tr = lastHandle (fst service)
          /\ stateUpdates tr
             = Replace startState :: Progress PROGRESS_MESSAGE
               :: match snd service with
                  | Resolved url => [Replace (doneState url)]
                  | Rejected error => [Fail (surfacedError error)]
                  | Pending => []
                  end)).
Proof.
  cbv zeta.
  destruct (trace_shape w file prompt aspectRatio)
    as [keyEvs Hquiet Hupd | keyEvs errEvs error Hquiet Hupd [Hq Hu]
        | keyEvs tail Hquiet Hupd Htail].
  - split.
    + change (SetVideoState (Replace startState) :: keyEvs)
        with ([SetVideoState (Replace startState)] ++ keyEvs).
      rewrite pollsStopped_app. cbn. now apply noRemote_pollsStopped.
    + left. split.
      * apply lastHandle_no_handles. cbn. now apply noRemote_handles.
      * left. unfold stateUpdates in *. cbn. now rewrite Hupd.
  - split.
    + change (SetVideoState (Replace startState) :: keyEvs ++ errEvs)
        with ([SetVideoState (Replace startState)] ++ keyEvs ++ errEvs).
      rewrite !pollsStopped_app. cbn.
      rewrite (noRemote_sawDone _ Hquiet), !noRemote_pollsStopped by assumption.
      reflexivity.
    + left. split.
      * apply lastHandle_no_handles.
        change (handles (SetVideoState (Replace startState) :: keyEvs ++ errEvs))
          with (handles (keyEvs ++ errEvs)).
        now rewrite handles_app, !noRemote_handles.
      * right. exists error.
        change (stateUpdates (SetVideoState (Replace startState) :: keyEvs ++ errEvs))
          with (Replace startState :: stateUpdates (keyEvs ++ errEvs)).
        now rewrite stateUpdates_app, Hupd, Hu.
  - assert (Htl : noRemote tail = true
                  /\ stateUpdates tail
                     = match snd (generateVeoVideo w file prompt aspectRatio []) with
                       | Resolved url => [Replace (doneState url)]
                       | Rejected error => [Fail (surfacedError error)]
                       | Pending => []
                       end).
    { destruct (snd (generateVeoVideo w file prompt aspectRatio []));
        [subst tail | destruct Htail | subst tail]; split; auto. }
    destruct Htl as [Hqt Hut].
    split.
    + match goal with
      | |- pollsStopped _ (?e :: ?l) = _ => change (e :: l) with ([e] ++ l)
      end.
      rewrite !pollsStopped_app. cbn.
      rewrite (noRemote_sawDone _ Hquiet), (noRemote_pollsStopped _ _ Hquiet).
      rewrite (noRemote_pollsStopped _ _ Hqt), generateVeoVideo_pollsStopped.
      reflexivity.
    + right. split.
      * unfold lastHandle.
        match goal with
        | |- context [handles (?e :: ?l)] => change (handles (e :: l)) with (handles l)
        end.
        rewrite !handles_app, (noRemote_handles _ Hquiet), (noRemote_handles _ Hqt).
        cbn [handles flat_map handleOf app]. now rewrite app_nil_r.
      * match goal with
        | |- stateUpdates (?e :: ?l) = _ =>
            change (stateUpdates (e :: l)) with (Replace startState :: stateUpdates l)
        end.
        rewrite !stateUpdates_app, Hupd, generateVeoVideo_stateUpdates, Hut.
        reflexivity.
Qed.

(* ================================================================= *)
(** ** Facts about substrings *)

Lemma prefix_refl (s : string) : String.prefix s s = true.
Proof.
  induction s as [|c s IH]; [reflexivity|].
  cbn. destruct (ascii_dec c c); [exact IH | congruence].
Qed.

Lemma includes_refl (s : string) : Js.includes s s = true.
Proof. destruct s; cbn [Js.includes]; now rewrite prefix_refl. Qed.

(** A text contains each of its suffixes. *)
Lemma includes_suffix (a b : string) : Js.includes (a ++ b)%string b = true.
Proof.
  induction a as [|c a IH].
  - apply includes_refl.
  - cbn [String.append Js.includes]. rewrite IH. apply orb_true_r.
Qed.

(* ================================================================= *)
(** ** What the statements after the loop decide *)

Lemma resolveOperation_error (w : World) (operation : Operation.t) (e : Operation.Error) :
  Operation.error operation = Some e ->
  snd (resolveOperation w operation []) = Rejected (newError (remoteFailure e)).
Proof. unfold resolveOperation. now intros ->. Qed.

Lemma resolveOperation_noLocator (w : World) (operation : Operation.t) :
  Operation.error operation = None -> noLocator operation = true ->
  snd (resolveOperation w operation []) = Rejected (newError NO_URI_MESSAGE).
Proof.
  unfold resolveOperation, noLocator. intros ->.
  destruct (videoUri operation) as [u|]; [|reflexivity].
  now destruct (Js.truthy u).
Qed.

Lemma resolveOperation_settled (w : World) (operation : Operation.t) :
  snd (resolveOperation w operation []) <> Pending.
Proof.
  unfold resolveOperation.
  destruct (Operation.error operation); [discriminate|].
  destruct (videoUri operation) as [u|]; [|discriminate].
  destruct (Js.truthy u); discriminate.
Qed.

Lemma resolveOperation_resolved
    (w : World) (operation : Operation.t) (u url : string) :
  videoUri operation = Some u ->
  snd (resolveOperation w operation []) = Resolved url ->
  url = (u ++ "&key=" ++ Js.template (API_KEY w))%string.
Proof.
  unfold resolveOperation. intros ->.
  destruct (Operation.error operation); [discriminate|].
  destruct (Js.truthy u); [|discriminate].
  cbn. congruence.
Qed.

Lemma surfacedError_remoteFailure (e : Operation.Error) :
  surfacedError (newError (remoteFailure e))
  = if Js.includes (remoteFailure e) ENTITY_NOT_FOUND
    then KEY_INVALID_MESSAGE
    else remoteFailure e.
Proof. reflexivity. Qed.

Lemma surfacedError_noUri : surfacedError (newError NO_URI_MESSAGE) = NO_URI_MESSAGE.
Proof. reflexivity. Qed.

(** The state a call leaves when the service call throws [error]. *)
Lemma finalState_failed (vs : VideoState.t) (tr : list Event) (error : JsError.t) :
  stateUpdates tr
  = [Replace startState; Progress PROGRESS_MESSAGE; Fail (surfacedError error)] ->
  Failed (finalState vs tr)
  /\ VideoState.error (finalState vs tr) = Some (surfacedError error).
Proof. unfold finalState. intros ->. repeat split. Qed.

(* ================================================================= *)
(** ** The claims about one run of the workflow *)

(** C2.  The workflow never completes as Succeeded while the latest handle
    received reports done=false; once a handle with done=true has been
    received no further status request is issued; and on such a handle the
    workflow completes (it is no longer busy). *)
Theorem C2_poll_until_done
    (w : World) (file : File.t) (prompt : string) (aspectRatio : AspectRatio)
    (vs : VideoState.t) :
  let tr := trace w (Some file) prompt aspectRatio in
  (forall operation,
      lastHandle tr = Some operation -> Operation.done operation = false ->
      ~ Succeeded (finalState vs tr))
  /\ (forall pre e post,
         tr = pre ++ e :: post -> receivedDone e = true ->
         Forall (fun e' => isStatusRequest e' = false) post)
  /\ (forall operation,
         lastHandle tr = Some operation -> Operation.done operation = true ->
         busy (finalState vs tr) = false).
Proof.
  cbv zeta.
  destruct (run_summary w file prompt aspectRatio) as [Hstop Hrun]. cbv zeta in *.
  split; [|split].
  - intros operation Hlast Hdone [Hbusy [Hres Herr]].
    destruct Hrun as [[Hnone _] | [Hsame Hupd]]; [congruence|].
    unfold finalState in *. rewrite Hupd in *.
    destruct (snd (generateVeoVideo w file prompt aspectRatio [])) as [url|error|] eqn:E.
    + destruct (generateVeoVideo_resolved _ _ _ _ _ E) as (operation' & Hl & Hd).
      congruence.
    + discriminate Herr.
    + discriminate Hbusy.
  - intros pre e post Htr He. rewrite Htr in Hstop.
    exact (pollsStopped_split _ _ _ _ Hstop He).
  - intros operation Hlast Hdone.
    destruct Hrun as [[Hnone _] | [Hsame Hupd]]; [congruence|].
    rewrite Hsame in Hlast.
    pose proof (generateVeoVideo_settles _ _ _ _ _ Hlast Hdone) as Hsettle.
    pose proof (resolveOperation_settled w operation) as Hnot.
    unfold finalState. rewrite Hupd.
    destruct (snd (generateVeoVideo w file prompt aspectRatio [])) as [url|error|];
      [reflexivity | reflexivity | congruence].
Qed.

(** C4, amended.  On a final handle that is done and carries an error
    payload the workflow ends Failed; the surfaced message is
    "Video generation failed: " followed by the remote message (or by
    "Unknown error" when the service omits one), and so carries it, unless
    that text contains "Requested entity was not found", in which case the
    fixed key-session message is surfaced instead. *)
Theorem C4_remote_error_surfaced
    (w : World) (file : File.t) (prompt : string) (aspectRatio : AspectRatio)
    (vs : VideoState.t) (operation : Operation.t) (e : Operation.Error) :
  let tr := trace w (Some file) prompt aspectRatio in
  lastHandle tr = Some operation ->
  Operation.done operation = true ->
  Operation.error operation = Some e ->
  Failed (finalState vs tr)
  /\ VideoState.error (finalState vs tr)
     = Some (if Js.includes (remoteFailure e) ENTITY_NOT_FOUND
             then KEY_INVALID_MESSAGE
             else remoteFailure e)
  /\ (Js.includes (remoteFailure e) ENTITY_NOT_FOUND = false ->
      exists surfaced,
        VideoState.error (finalState vs tr) = Some surfaced
        /\ Js.includes surfaced (remoteFailureText e) = true).
Proof.
  cbv zeta. intros Hlast Hdone Herror.
  destruct (run_summary w file prompt aspectRatio) as [_ Hrun]. cbv zeta in Hrun.
  destruct Hrun as [[Hnone _] | [Hsame Hupd]]; [congruence|].
  rewrite Hsame in Hlast.
  rewrite (generateVeoVideo_settles _ _ _ _ _ Hlast Hdone) in Hupd.
  rewrite (resolveOperation_error _ _ _ Herror) in Hupd.
  destruct (finalState_failed vs _ _ Hupd) as [Hfailed Hmsg].
  rewrite surfacedError_remoteFailure in Hmsg.
  split; [exact Hfailed|]. split; [exact Hmsg|].
  intros Hno. rewrite Hno in Hmsg.
  exists (remoteFailure e). split; [exact Hmsg|].
  apply includes_suffix.
Qed.

(** C5.  On a final handle that is done, carries no error payload and no
    result locator, the workflow ends Failed with the message
    "No video URI returned from the API.", which is not of the generic
    remote-failure form "Video generation failed: ...". *)
Theorem C5_no_result_error
    (w : World) (file : File.t) (prompt : string) (aspectRatio : AspectRatio)
    (vs : VideoState.t) (operation : Operation.t) :
  let tr := trace w (Some file) prompt aspectRatio in
  lastHandle tr = Some operation ->
  Operation.done operation = true ->
  Operation.error operation = None ->
  noLocator operation = true ->
  Failed (finalState vs tr)
  /\ VideoState.error (finalState vs tr) = Some NO_URI_MESSAGE
  /\ Js.startsWith NO_URI_MESSAGE "Video generation failed: " = false
  /\ forall e, NO_URI_MESSAGE <> remoteFailure e.
Proof.
  cbv zeta. intros Hlast Hdone Herror Hnone.
  destruct (run_summary w file prompt aspectRatio) as [_ Hrun]. cbv zeta in Hrun.
  destruct Hrun as [[Hno _] | [Hsame Hupd]]; [congruence|].
  rewrite Hsame in Hlast.
  rewrite (generateVeoVideo_settles _ _ _ _ _ Hlast Hdone) in Hupd.
  rewrite (resolveOperation_noLocator _ _ Herror Hnone) in Hupd.
  destruct (finalState_failed vs _ _ Hupd) as [Hfailed Hmsg].
  rewrite surfacedError_noUri in Hmsg.
  split; [exact Hfailed|]. split; [exact Hmsg|]. split; [reflexivity|].
  intros e H. unfold remoteFailure, NO_URI_MESSAGE in H. cbn in H. discriminate H.
Qed.

(** C7.  When the workflow ends Succeeded and its final handle carries the
    result locator u, the surfaced locator is u followed by "&key=" and the
    access credential, and the error field is null. *)
Theorem C7_result_locator
    (w : World) (file : File.t) (prompt : string) (aspectRatio : AspectRatio)
    (vs : VideoState.t) (operation : Operation.t) (u : string) :
  let tr := trace w (Some file) prompt aspectRatio in
  Succeeded (finalState vs tr) ->
  lastHandle tr = Some operation ->
  videoUri operation = Some u ->
  VideoState.videoUrl (finalState vs tr)
  = Some (u ++ "&key=" ++ Js.template (API_KEY w))%string
  /\ VideoState.error (finalState vs tr) = None.
Proof.
  cbv zeta. intros [Hbusy [Hres Herr]] Hlast Huri.
  destruct (run_summary w file prompt aspectRatio) as [_ Hrun]. cbv zeta in Hrun.
  destruct Hrun as [[Hno _] | [Hsame Hupd]]; [congruence|].
  unfold finalState in *. rewrite Hupd in *.
  destruct (snd (generateVeoVideo w file prompt aspectRatio [])) as [url|error|] eqn:E.
  - destruct (generateVeoVideo_resolved _ _ _ _ _ E) as (operation' & Hl & Hd).
    assert (operation' = operation) by congruence. subst operation'.
    rewrite (generateVeoVideo_settles _ _ _ _ _ Hl Hd) in E.
    rewrite (resolveOperation_resolved _ _ _ _ Huri E).
    split; reflexivity.
  - discriminate Herr.
  - discriminate Hbusy.
Qed.

(* ================================================================= *)
(** ** The failure handler *)

(** C6, amended.  On every failure whose message contains
    "Requested entity was not found" the handler sets the surfaced error to
    exactly "API Key session invalid. Please try generating again to select
    a new key."; when the host provides [window.aistudio] it then invokes
    credential reselection exactly once and ignores a failure of that call;
    when the host provides none, no reselection is attempted. *)
Theorem C6_stale_credential
    (w : World) (error : JsError.t) (log : list Event) :
  Js.includes (errorMessageOf error) ENTITY_NOT_FOUND = true ->
  let evs := effects (handleError w error) log in
  evs = [ConsoleError error; SetVideoState (Fail KEY_INVALID_MESSAGE)]
          ++ reselection w log
  /\ stateUpdates evs = [Fail KEY_INVALID_MESSAGE]
  /\ (forall vs, VideoState.error (applyUpdates (stateUpdates evs) vs)
                 = Some KEY_INVALID_MESSAGE)
  /\ countOpenSelectKey evs = match aistudio w with Some _ => 1 | None => 0 end
  /\ forall e, snd (handleError w error log) <> Rejected e.
Proof.
  intros Hsig. cbv zeta. unfold effects.
  destruct (handleError_stale w error log Hsig) as [-> Hswallow].
  rewrite skipn_length_app.
  unfold reselection.
  destruct (aistudio w); repeat split; assumption.
Qed.

(* ================================================================= *)
(** ** The creation request *)

(** C3.  Once the image has been read, [generateVeoVideo] sends exactly one
    creation request; it carries the fixed fallback prompt when the caller's
    prompt is empty and the caller's prompt unmodified otherwise, with one
    video, resolution 720p and the caller's aspect ratio. *)
Theorem C3_prompt_fallback
    (w : World) (imageFile : File.t) (prompt : string) (aspectRatio : AspectRatio)
    (base64String : string) :
  readAsDataURL w imageFile = Resolved base64String ->
  exists request,
    creationRequests (fst (generateVeoVideo w imageFile prompt aspectRatio []))
    = [request]
    /\ (prompt = "" ->
        GenerateVideos.prompt request = "Animate this image cinematically")
    /\ (prompt <> "" -> GenerateVideos.prompt request = prompt)
    /\ GenerateVideos.config request
       = {| GenerateVideos.numberOfVideos := 1;
            GenerateVideos.resolution := "720p";
            GenerateVideos.aspectRatio := aspectRatio |}.
Proof.
  intros Hread.
  rewrite generateVeoVideo_creationRequests, Hread.
  eexists. split; [reflexivity|].
  cbn [generateVideosParameters GenerateVideos.prompt GenerateVideos.config].
  unfold Js.orElse, Js.truthy.
  split; [|split].
  - now intros ->.
  - intros Hne. destruct (String.eqb_spec prompt ""); [contradiction | reflexivity].
  - reflexivity.
Qed.

(* ================================================================= *)
(** ** Start without an image, and dismiss *)

(** C8.  Invoked while no image is selected, [handleGenerate] returns at
    once: it performs no effect at all (no state update, no credential
    call, no remote request), so the workflow state is unchanged and an
    idle state stays idle; the click leaves the whole component state
    unchanged. *)
Theorem C8_start_without_image
    (w : World) (prompt : string) (aspectRatio : AspectRatio) (vs : VideoState.t)
    (log : list Event) :
  let tr := trace w None prompt aspectRatio in
  handleGenerate w None prompt aspectRatio log = (log, Resolved tt)
  /\ tr = []
  /\ finalState vs tr = vs
  /\ idle (finalState vs tr) = idle vs
  /\ existsb isCredentialCall tr = false
  /\ existsb isRemoteRequest tr = false
  /\ (forall s, App.file s = None ->
                 App.generateDisabled s = true /\ App.clickGenerate w s = s).
Proof.
  cbv zeta. repeat split.
  - unfold App.generateDisabled. now rewrite H.
  - unfold App.clickGenerate. now rewrite H.
Qed.

(** C9.  From a Failed state the dismiss action clears the error field and
    nothing else: the workflow is Idle afterwards, and the selected image,
    the prompt, the aspect ratio and the other fields of the workflow state
    are unchanged. *)
Theorem C9_dismiss (s : App.t) :
  Failed (App.videoState s) ->
  let s' := App.dismiss s in
  Idle (App.videoState s')
  /\ App.file s' = App.file s
  /\ App.prompt s' = App.prompt s
  /\ App.aspectRatio s' = App.aspectRatio s
  /\ VideoState.error (App.videoState s') = None
  /\ VideoState.isLoading (App.videoState s') = VideoState.isLoading (App.videoState s)
  /\ VideoState.progressMessage (App.videoState s')
     = VideoState.progressMessage (App.videoState s)
  /\ VideoState.videoUrl (App.videoState s') = VideoState.videoUrl (App.videoState s).
Proof.
  intros [Hbusy [Hres Herr]]. cbv zeta.
  repeat split.
  unfold Idle, idle, busy, hasResult, hasError in *. cbn.
  now rewrite Hbusy, Hres.
Qed.

(* ================================================================= *)
(** ** The upload widget *)

(** C10.  The file-input change handler passes the first file to
    [onFileSelect] whatever its media type and size; the drop handler
    passes the first dropped file only when its media type starts with
    "image/"; neither looks at the size, so a file above the advertised
    10MB is selected on both paths. *)
Theorem C10_upload_paths :
  (forall file rest,
      FileUpload.selected (FileUpload.handleFileChange (Some (file :: rest))) = [file])
  /\ (forall file rest,
         FileUpload.selected (FileUpload.handleDrop (Some (file :: rest)))
         = if Js.startsWith (File.type file) "image/" then [file] else [])
  /\ (let big := {| File.name := "big.png"; File.type := "image/png";
                    File.size := 11 * 1024 * 1024 |} in
      (FileUpload.ADVISORY_MAX_BYTES < File.size big)%N
      /\ FileUpload.selected (FileUpload.handleFileChange (Some [big])) = [big]
      /\ FileUpload.selected (FileUpload.handleDrop (Some [big])) = [big])
  /\ (let pdf := {| File.name := "notes.pdf"; File.type := "application/pdf";
                    File.size := 1024 |} in
      FileUpload.selected (FileUpload.handleFileChange (Some [pdf])) = [pdf]
      /\ FileUpload.selected (FileUpload.handleDrop (Some [pdf])) = []).
Proof.
  split; [|split; [|split]].
  - reflexivity.
  - intros file rest. unfold FileUpload.handleDrop.
    cbn [app FileUpload.selected flat_map FileUpload.selectedOf].
    destruct (Js.startsWith (File.type file) "image/"); reflexivity.
  - cbv zeta. split; [reflexivity|]. split; reflexivity.
  - cbv zeta. split; reflexivity.
Qed.

(* ================================================================= *)
(** ** The invariant of the workflow state *)

Lemma run_updates
    (w : World) (file : File.t) (prompt : string) (aspectRatio : AspectRatio) :
  exists pending,
    stateUpdates (trace w (Some file) prompt aspectRatio) = Replace startState :: pending
    /\ pendingOK pending = true.
Proof.
  destruct (run_summary w file prompt aspectRatio) as [_ Hrun]. cbv zeta in Hrun.
  destruct Hrun as [[_ [-> | [error ->]]] | [_ ->]].
  - now exists [].
  - now eexists.
  - destruct (snd (generateVeoVideo w file prompt aspectRatio []));
      eexists; split; reflexivity.
Qed.

Lemma Inv_init : Inv App.init.
Proof. split; [reflexivity | constructor | now left]. Qed.

Lemma singleton_split {A : Type} (a b : list A) (x y : A) :
  a ++ x :: b = [y] -> a = [] /\ x = y /\ b = [].
Proof.
  destruct a as [|z a]; cbn; intros H.
  - injection H as -> ->. auto.
  - injection H as _ H. now destruct a.
Qed.

Lemma Inv_clickGenerate (s : App.t) (w : World) :
  App.generateDisabled s = false -> Inv s -> Inv (App.clickGenerate w s).
Proof.
  intros Hen [Hex Hpend Hsingle].
  unfold App.generateDisabled, Button_disabled in Hen.
  unfold App.clickGenerate.
  destruct (App.file s) as [file|]; [|discriminate].
  cbn in Hen.
  destruct (run_updates w file (App.prompt s) (App.aspectRatio s))
    as (pending & -> & Hok).
  assert (Hidle : live s = []).
  { destruct Hsingle as [H | (q & _ & Hb & _)]; [exact H | congruence]. }
  split; cbn.
  - reflexivity.
  - now constructor.
  - unfold live in *. cbn. rewrite Hidle.
    destruct pending as [|u pending]; [now left|].
    right. eexists. split; [reflexivity|]. repeat split.
Qed.

Lemma Inv_resume
    (s : App.t) (before after : list (list StateUpdate))
    (u : StateUpdate) (pending : list StateUpdate) :
  App.inflight s = before ++ (u :: pending) :: after ->
  Inv s ->
  Inv (App.withVideoState (applyUpdate u (App.videoState s))
                          (before ++ pending :: after) s).
Proof.
  intros Hin [Hex Hpend Hsingle].
  unfold live in Hsingle. rewrite Hin in Hsingle, Hpend.
  rewrite filter_app in Hsingle. cbn [filter isLive] in Hsingle.
  destruct Hsingle as [H | (q & H & Hbusy)];
    [destruct (filter isLive before); discriminate H|].
  apply singleton_split in H. destruct H as (Hbefore & _ & Hafter).
  apply Forall_app in Hpend. destruct Hpend as [Hpb Hpa].
  inversion Hpa as [|? ? Hq Hpa']; subst.
  assert (Hlive : forall q', live (App.withVideoState (applyUpdate u (App.videoState s))
                                     (before ++ q' :: after) s)
                             = if isLive q' then [q'] else []).
  { intros q'. unfold live. cbn. rewrite filter_app, Hbefore. cbn.
    rewrite Hafter. now destruct (isLive q'). }
  destruct (App.videoState s) as [loading message url err] eqn:Evs.
  destruct Hbusy as (Hl & Hu & He). cbn in Hl, Hu, He. subst loading url err.
  destruct u as [next | m | m |].
  - destruct pending; [|discriminate Hq].
    cbn in Hq. apply andb_true_iff in Hq. destruct Hq as [Hq Hq3].
    apply andb_true_iff in Hq. destruct Hq as [Hq1 Hq2].
    split.
    + cbn. unfold exactlyOne, conditionsHolding, idle.
      apply negb_true_iff in Hq1, Hq3. now rewrite Hq1, Hq2, Hq3.
    + cbn. apply Forall_app. split; [assumption | now constructor].
    + left. now rewrite Hlive.
  - split.
    + reflexivity.
    + cbn. apply Forall_app. split; [assumption | now constructor].
    + rewrite Hlive. destruct pending; [now left|].
      right. eexists. split; [reflexivity|]. repeat split.
  - destruct pending; [|discriminate Hq].
    split.
    + reflexivity.
    + cbn. apply Forall_app. split; [assumption | now constructor].
    + left. now rewrite Hlive.
  - discriminate Hq.
Qed.

Lemma Inv_dismiss (s : App.t) :
  App.errorShown s = true -> Inv s -> Inv (App.dismiss s).
Proof.
  intros Hshown [Hex Hpend Hsingle].
  unfold App.errorShown in Hshown.
  destruct (App.videoState s) as [loading message url err] eqn:Evs.
  cbn in Hshown. destruct err as [m|]; [|discriminate].
  assert (Hidle : live s = []).
  { destruct Hsingle as [H | (q & _ & _ & _ & He)]; [exact H | discriminate He]. }
  split.
  - unfold App.dismiss. cbn. rewrite Evs. cbn.
    destruct loading, url; cbn in Hex; try discriminate Hex; reflexivity.
  - exact Hpend.
  - left. exact Hidle.
Qed.

Lemma Inv_step (s s' : App.t) : App.step s s' -> Inv s -> Inv s'.
Proof.
  intros Hstep HI.
  destruct Hstep as [s f | s p | s a | s w Hen | s before after u pending Hin | s Hshown].
  - destruct HI; now split.
  - destruct HI; now split.
  - destruct HI; now split.
  - now apply Inv_clickGenerate.
  - now apply Inv_resume.
  - now apply Inv_dismiss.
Qed.

(** C1.  In every state the component can reach through its transitions
    (selecting inputs, start, the later updates of a run in flight --
    progress, success, failure -- and dismiss), exactly one of busy,
    has-result, has-error and idle holds of the workflow state. *)
Theorem C1_exactly_one_condition (s : App.t) :
  App.reachable s -> exactlyOne (App.videoState s).
Proof.
  intros Hreach. apply inv_exactly.
  induction Hreach as [|s s' _ IH Hstep].
  - apply Inv_init.
  - exact (Inv_step s s' Hstep IH).
Qed.

(* ================================================================= *)
(** ** Witnesses and counterexamples *)

Lemma C1_witness : exactlyOne (App.videoState example_succeeded).
Proof.
  apply C1_exactly_one_condition.
  apply (App.reachable_step example_progress).
  - apply (App.reachable_step example_started).
    + apply (App.reachable_step example_selected).
      * apply (App.reachable_step App.init).
        -- apply App.reachable_init.
        -- apply App.step_selectFile.
      * apply App.step_clickGenerate. reflexivity.
    + apply (App.step_resume example_started [] []
               (Progress PROGRESS_MESSAGE)
               [Replace (doneState "https://x/video1&key=CREDENTIAL")]).
      reflexivity.
  - apply (App.step_resume example_progress [] []
             (Replace (doneState "https://x/video1&key=CREDENTIAL")) []).
    reflexivity.
Defined.

Lemma C2_witness :
  busy (finalState initialVideoState (trace world_success (Some landscape_jpg) "" LANDSCAPE))
  = false
  /\ length (filter isStatusRequest (trace world_success (Some landscape_jpg) "" LANDSCAPE))
     = 2.
Proof.
  split; [|reflexivity].
  apply (proj2 (proj2 (C2_poll_until_done world_success landscape_jpg "" LANDSCAPE
                         initialVideoState))
           (opResult "https://x/video1"));
    reflexivity.
Defined.

Lemma C3_witness :
  exists request,
    creationRequests (fst (generateVeoVideo world_success landscape_jpg "" LANDSCAPE []))
    = [request]
    /\ ("" = "" -> GenerateVideos.prompt request = "Animate this image cinematically")
    /\ ("" <> "" -> GenerateVideos.prompt request = "")
    /\ GenerateVideos.config request
       = {| GenerateVideos.numberOfVideos := 1;
            GenerateVideos.resolution := "720p";
            GenerateVideos.aspectRatio := LANDSCAPE |}.
Proof.
  exact (C3_prompt_fallback world_success landscape_jpg "" LANDSCAPE
           "data:image/jpeg;base64,QUJD" eq_refl).
Defined.

(** The claim fails on the handle [done=true, error.message = "Requested
    entity was not found"]: the surfaced message is the fixed key-session
    text, which does not contain the remote message. *)
Lemma C4_counterexample : ~ C4_as_stated.
Proof.
  intros H.
  destruct (H world_stale landscape_jpg "" LANDSCAPE initialVideoState
              (opError (Some "Requested entity was not found"))
              {| Operation.message := Some "Requested entity was not found" |}
              eq_refl eq_refl eq_refl)
    as [_ (surfaced & Hs & Hinc)].
  vm_compute in Hs. injection Hs as <-.
  vm_compute in Hinc. discriminate Hinc.
Qed.

Lemma C4_witness :
  VideoState.error
    (finalState initialVideoState (trace world_quota (Some landscape_jpg) "" LANDSCAPE))
  = Some "Video generation failed: Quota exceeded".
Proof.
  exact (proj1 (proj2
           (C4_remote_error_surfaced world_quota landscape_jpg "" LANDSCAPE
              initialVideoState (opError (Some "Quota exceeded"))
              {| Operation.message := Some "Quota exceeded" |}
              eq_refl eq_refl eq_refl))).
Defined.

Lemma C5_witness :
  VideoState.error
    (finalState initialVideoState (trace world_empty (Some landscape_jpg) "" LANDSCAPE))
  = Some "No video URI returned from the API.".
Proof.
  exact (proj1 (proj2
           (C5_no_result_error world_empty landscape_jpg "" LANDSCAPE
              initialVideoState opEmpty eq_refl eq_refl eq_refl eq_refl))).
Defined.

(** The claim fails in a host without [window.aistudio]: the handler
    surfaces the fixed message but has no capability to invoke. *)
Lemma C6_counterexample : ~ C6_as_stated.
Proof.
  intros H.
  destruct (H world_stale_nohost
              (newError "Video generation failed: Requested entity was not found")
              [] eq_refl)
    as (_ & Hcount & _).
  vm_compute in Hcount. discriminate Hcount.
Qed.

Lemma C6_witness :
  effects (handleError world_stale
             (newError "Video generation failed: Requested entity was not found")) []
  = [ConsoleError (newError "Video generation failed: Requested entity was not found");
     SetVideoState (Fail KEY_INVALID_MESSAGE);
     OpenSelectKey (Rejected (newError "cancelled"))]
  /\ snd (handleError world_stale
            (newError "Video generation failed: Requested entity was not found") [])
     = Resolved tt.
Proof.
  split; [|reflexivity].
  exact (proj1 (C6_stale_credential world_stale
                  (newError "Video generation failed: Requested entity was not found")
                  [] eq_refl)).
Defined.

Lemma C7_witness :
  VideoState.videoUrl
    (finalState initialVideoState (trace world_success (Some landscape_jpg) "" LANDSCAPE))
  = Some "https://x/video1&key=CREDENTIAL"
  /\ VideoState.error
       (finalState initialVideoState (trace world_success (Some landscape_jpg) "" LANDSCAPE))
     = None.
Proof.
  exact (C7_result_locator world_success landscape_jpg "" LANDSCAPE initialVideoState
           (opResult "https://x/video1") "https://x/video1"
           (conj eq_refl (conj eq_refl eq_refl)) eq_refl eq_refl).
Defined.

Lemma C9_witness :
  Idle (App.videoState (App.dismiss example_failed))
  /\ App.file (App.dismiss example_failed) = Some landscape_jpg
  /\ App.prompt (App.dismiss example_failed) = "slow pan to the left".
Proof.
  destruct (C9_dismiss example_failed (conj eq_refl (conj eq_refl eq_refl)))
    as (Hidle & Hfile & Hprompt & _).
  exact (conj Hidle (conj Hfile Hprompt)).
Defined.


(* ================================================================= *)
(** ** Further examples *)

(** The stale-credential run in a host that provides [window.aistudio]:
    the fixed message is surfaced and the selector is opened once. *)
Example stale_run :
  let tr := trace world_stale (Some landscape_jpg) "" LANDSCAPE in
  VideoState.error (finalState initialVideoState tr) = Some KEY_INVALID_MESSAGE
  /\ countOpenSelectKey tr = 1.
Proof. split; reflexivity. Qed.

(** When no key was selected at the start, the selector has already been
    opened once by the key check; the failure handler opens it once more. *)
Example stale_run_after_selection :
  let studio := {| hasSelectedApiKey := Resolved false;
                   openSelectKey := fun _ => Resolved tt |} in
  let w := worldWith (Some studio) (opError (Some "Requested entity was not found")) [] in
  let tr := trace w (Some landscape_jpg) "" LANDSCAPE in
  VideoState.error (finalState initialVideoState tr) = Some KEY_INVALID_MESSAGE
  /\ countOpenSelectKey tr = 2
  /\ countOpenSelectKey
       (effects (handleError w
                   (newError "Video generation failed: Requested entity was not found"))
                [OpenSelectKey (Resolved tt)])
     = 1.
Proof. repeat split. Qed.

(** A declined key selection fails the run with the fixed message of the
    key check, before any remote request. *)
Example declined_selection :
  let studio := {| hasSelectedApiKey := Resolved false;
                   openSelectKey := fun _ => Rejected (newError "cancelled") |} in
  let w := worldWith (Some studio) opRunning [] in
  let tr := trace w (Some landscape_jpg) "" LANDSCAPE in
  VideoState.error (finalState initialVideoState tr)
  = Some "API Key selection is required to proceed."
  /\ existsb isRemoteRequest tr = false.
Proof. split; reflexivity. Qed.

(** The invariant of the workflow state rests on the Generate button being
    disabled while a run is in flight: were [handleGenerate] entered a
    second time before the first call finished, the first call could
    install its result and the second then fail, and the state would hold
    a result and an error at once. *)
Remark reentrant_calls_would_break_the_invariant :
  let first := stateUpdates (trace world_success (Some landscape_jpg) "" LANDSCAPE) in
  let second := stateUpdates (trace world_quota (Some landscape_jpg) "" LANDSCAPE) in
  let url := "https://x/video1&key=CREDENTIAL" in
  let failure := "Video generation failed: Quota exceeded" in
  first = [Replace startState; Progress PROGRESS_MESSAGE; Replace (doneState url)]
  /\ second = [Replace startState; Progress PROGRESS_MESSAGE; Fail failure]
  /\ conditionsHolding
       (applyUpdates
          [Replace startState; Replace startState;
           Progress PROGRESS_MESSAGE; Progress PROGRESS_MESSAGE;
           Replace (doneState url); Fail failure]
          initialVideoState)
     = 2.
Proof. repeat split. Qed.

(** [split] agrees with JavaScript on a data URL and on texts without a
    comma. *)
Example split_examples :
  Js.split "," "data:image/png;base64,iVBORw0K" = ["data:image/png;base64"; "iVBORw0K"]
  /\ Js.split "," "a,b,,c" = ["a"; "b"; ""; "c"]
  /\ Js.split "," "abc" = ["abc"]
  /\ Js.split "," "" = [""]
  /\ Js.includes "abc" "" = true
  /\ Js.includes "xx Requested entity was not found." ENTITY_NOT_FOUND = true.
Proof. repeat split. Qed.

(* ================================================================= *)
(** ** Splitting a data URL *)

Lemma includes_comma_cons (c : ascii) (s : string) :
  Js.includes (String c s) "," = false ->
  Ascii.eqb c "," = false /\ Js.includes s "," = false.
Proof.
  cbn [Js.includes]. intros H. apply orb_false_iff in H. destruct H as [Hp Hs].
  split; [|exact Hs].
  cbn [String.prefix] in Hp.
  destruct (ascii_dec "," c) as [<-|Hne]; [destruct s; discriminate Hp|].
  apply Ascii.eqb_neq. congruence.
Qed.

Lemma split_comma_free (s : string) :
  Js.includes s "," = false -> Js.split "," s = [s].
Proof.
  induction s as [|c s IH]; [reflexivity|].
  intros H. apply includes_comma_cons in H. destruct H as [Hc Hs].
  cbn [Js.split]. rewrite Hc, (IH Hs). reflexivity.
Qed.

Lemma split_at_comma (a b : string) :
  Js.includes a "," = false ->
  Js.split "," (a ++ "," ++ b)%string = a :: Js.split "," b.
Proof.
  induction a as [|c a IH]; intros H.
  - reflexivity.
  - apply includes_comma_cons in H. destruct H as [Hc Ha].
    cbn [String.append Js.split]. rewrite Hc.
    cbn [String.append] in IH. rewrite (IH Ha). reflexivity.
Qed.

(** X1.  [fileToGenerativePart] resolves with the file's media type and
    the text that follows the first comma of the data URL: for a data URL
    made of a comma-free header, a comma and a comma-free payload it is
    the payload; for a text without a comma the data is undefined, and the
    promise still resolves; when the reader fails, the promise rejects
    with the reader's error. *)
Theorem X1_fileToGenerativePart (w : World) (file : File.t) (log : list Event) :
  (forall header payload,
      readAsDataURL w file = Resolved (header ++ "," ++ payload)%string ->
      Js.includes header "," = false ->
      Js.includes payload "," = false ->
      snd (fileToGenerativePart w file log)
      = Resolved {| GenerativePart.mimeType := File.type file;
                    GenerativePart.data := Some payload |})
  /\ (forall text,
         readAsDataURL w file = Resolved text ->
         Js.includes text "," = false ->
         snd (fileToGenerativePart w file log)
         = Resolved {| GenerativePart.mimeType := File.type file;
                       GenerativePart.data := None |})
  /\ (forall e,
         readAsDataURL w file = Rejected e ->
         fileToGenerativePart w file log
         = (log ++ [ReadAsDataURL file (Rejected e)], Rejected e)).
Proof.
  unfold fileToGenerativePart, bind, await, ret.
  split; [|split].
  - intros header payload -> Hh Hp. cbn [snd].
    now rewrite (split_at_comma _ _ Hh), (split_comma_free _ Hp).
  - intros text -> Ht. cbn [snd]. now rewrite (split_comma_free _ Ht).
  - now intros e ->.
Qed.

(** X2.  The creation request carries the payload of the data URL as image
    bytes and the file's own media type, whatever that type is, under the
    fixed model name. *)
Theorem X2_request_image
    (w : World) (imageFile : File.t) (prompt : string) (aspectRatio : AspectRatio)
    (header payload : string) :
  readAsDataURL w imageFile = Resolved (header ++ "," ++ payload)%string ->
  Js.includes header "," = false ->
  Js.includes payload "," = false ->
  exists request,
    creationRequests (fst (generateVeoVideo w imageFile prompt aspectRatio []))
    = [request]
    /\ GenerateVideos.image request
       = {| GenerateVideos.imageBytes := Some payload;
            GenerateVideos.mimeType := File.type imageFile |}
    /\ GenerateVideos.model request = "veo-3.1-fast-generate-preview".
Proof.
  intros Hread Hh Hp.
  rewrite generateVeoVideo_creationRequests, Hread.
  eexists. split; [reflexivity|].
  cbn [generateVideosParameters GenerateVideos.image GenerateVideos.model
       generativePartOf GenerativePart.data GenerativePart.mimeType].
  now rewrite (split_at_comma _ _ Hh), (split_comma_free _ Hp).
Qed.

(* ================================================================= *)
(** ** The iterations of the polling loop *)

Lemma statusRequests_app (a b : list Event) :
  statusRequests (a ++ b) = statusRequests a + statusRequests b.
Proof. unfold statusRequests. now rewrite filter_app, length_app. Qed.

Lemma timeouts_app (a b : list Event) : timeouts (a ++ b) = timeouts a ++ timeouts b.
Proof. apply flat_map_app. Qed.

Lemma iterationEffects_counts (iterations : list (Operation.t * Promise Operation.t)) :
  statusRequests (iterationEffects iterations) = length iterations
  /\ timeouts (iterationEffects iterations) = repeat 5000%N (length iterations).
Proof.
  induction iterations as [|[requested reply] rest [IHs IHt]]; [now split|].
  change (iterationEffects ((requested, reply) :: rest))
    with (pollPrefix requested reply ++ iterationEffects rest).
  rewrite statusRequests_app, timeouts_app, IHs, IHt. now split.
Qed.

Lemma pollLoop_iterations
    (replies : list (Promise Operation.t)) (operation : Operation.t) :
  exists iterations,
    fst (pollLoop replies operation []) = iterationEffects iterations
    /\ chained operation iterations.
Proof.
  revert operation. induction replies as [|reply replies IH]; intros operation;
    destruct (Operation.done operation) eqn:D.
  - rewrite pollLoop_done by assumption. now exists [].
  - rewrite pollLoop_exhausted by assumption.
    exists [(operation, Pending)]. now cbn.
  - rewrite pollLoop_done by assumption. now exists [].
  - rewrite pollLoop_step by assumption.
    destruct reply as [operation'|e|].
    + destruct (IH operation') as (iterations & E & Hch).
      exists ((operation, Resolved operation') :: iterations).
      cbn [fst]. rewrite E. split; [reflexivity|]. cbn. auto.
    + exists [(operation, Rejected e)]. now cbn.
    + exists [(operation, Pending)]. now cbn.
Qed.

Lemma pollLoop_waits (replies : list (Promise Operation.t)) (operation : Operation.t) :
  timeouts (fst (pollLoop replies operation []))
  = repeat 5000%N (statusRequests (fst (pollLoop replies operation []))).
Proof.
  destruct (pollLoop_iterations replies operation) as (iterations & -> & _).
  destruct (iterationEffects_counts iterations) as [-> ->]. reflexivity.
Qed.

(** X3.  The polling loop performs a sequence of iterations, each made of
    a wait of 5000 ms, a log line and one status request; every request is
    for the handle received last, which is not done; a request that is
    rejected or never answered is the last one.  So there are as many
    waits, all of 5000 ms, as status requests. *)
Theorem X3_poll_iterations
    (replies : list (Promise Operation.t)) (operation : Operation.t) :
  let evs := fst (pollLoop replies operation []) in
  (exists iterations, evs = iterationEffects iterations /\ chained operation iterations)
  /\ timeouts evs = repeat 5000%N (statusRequests evs)
  /\ length (timeouts evs) = statusRequests evs.
Proof.
  cbv zeta.
  destruct (pollLoop_iterations replies operation) as (iterations & E & Hch).
  split; [now exists iterations|].
  rewrite E. destruct (iterationEffects_counts iterations) as [-> ->].
  split; [reflexivity | apply repeat_length].
Qed.

(** X4.  When every status request is answered with a snapshot, the loop
    issues one request per snapshot that is not done, stopping at the
    first done one, which it returns; if no snapshot is done it asks once
    more and waits for ever. *)
Theorem X4_poll_first_done (snapshots : list Operation.t) (operation : Operation.t) :
  let run := pollLoop (map Resolved snapshots) operation [] in
  statusRequests (fst run) = length (notDonePrefix (operation :: snapshots))
  /\ snd run = match find Operation.done (operation :: snapshots) with
               | Some final => Resolved final
               | None => Pending
               end.
Proof.
  cbv zeta. revert operation.
  induction snapshots as [|h snapshots IH]; intros operation;
    cbn [map notDonePrefix find];
    destruct (Operation.done operation) eqn:D.
  - rewrite pollLoop_done by assumption. now split.
  - rewrite pollLoop_exhausted by assumption. now split.
  - rewrite pollLoop_done by assumption. now split.
  - rewrite pollLoop_step by assumption. cbn [fst snd].
    rewrite statusRequests_app.
    destruct (IH h) as [-> ->]. cbn [notDonePrefix find]. now split.
Qed.


(* ================================================================= *)
(** ** The run, by whether the key check passes *)

(** Observations that only see the effects of the service call. *)
Lemma serviceEffects_observed (tr : list Event) :
  creationRequests tr = creationRequests (filter isServiceEffect tr)
  /\ statusRequests tr = statusRequests (filter isServiceEffect tr)
  /\ timeouts tr = timeouts (filter isServiceEffect tr)
  /\ handles tr = handles (filter isServiceEffect tr).
Proof.
  unfold creationRequests, statusRequests, timeouts, handles.
  induction tr as [|e tr (IHc & IHs & IHt & IHh)]; [now repeat split|].
  destruct e; cbn in *; rewrite ?IHc, ?IHt, ?IHh; repeat split;
    try reflexivity; try exact IHs; now f_equal.
Qed.

Lemma handleError_quiet (w : World) (error : JsError.t) (log : list Event) :
  exists evs,
    fst (handleError w error log) = log ++ evs
    /\ stateUpdates evs = [Fail (surfacedError error)]
    /\ filter isServiceEffect evs = [].
Proof.
  unfold surfacedError.
  destruct (Js.includes (errorMessageOf error) ENTITY_NOT_FOUND) eqn:Hsig.
  - destruct (handleError_stale w error log Hsig) as [-> _].
    eexists; split; [reflexivity|].
    unfold reselection. destruct (aistudio w); split; reflexivity.
  - rewrite (handleError_other w error log Hsig).
    eexists; split; [reflexivity|]. split; reflexivity.
Qed.

(** The outcome of the key check, from a log without selector calls. *)
Lemma checkApiKey_outcome (w : World) (log : list Event) :
  countOpenSelectKey log = 0 ->
  exists evs,
    fst (checkApiKey w log) = log ++ evs
    /\ stateUpdates evs = []
    /\ filter isServiceEffect evs = []
    /\ countOpenSelectKey evs
       = match aistudio w with
         | Some studio =>
             match hasSelectedApiKey studio with
             | Resolved false => 1
             | _ => 0
             end
         | None => 0
         end
    /\ snd (checkApiKey w log)
       = match aistudio w with
         | None => Resolved tt
         | Some studio =>
             match hasSelectedApiKey studio with
             | Resolved true => Resolved tt
             | Resolved false =>
                 match openSelectKey studio 0 with
                 | Resolved _ => Resolved tt
                 | Rejected _ => Rejected (newError KEY_REQUIRED_MESSAGE)
                 | Pending => Pending
                 end
             | Rejected e => Rejected e
             | Pending => Pending
             end
         end.
Proof.
  intros Hlog. unfold checkApiKey.
  destruct (aistudio w) as [studio|].
  - unfold bind, await, tryCatch, callOpenSelectKey, await.
    destruct (hasSelectedApiKey studio) as [[|]|e|]; cbn [negb fst snd];
      try (eexists; split; [reflexivity|]; repeat split; reflexivity).
    rewrite countOpenSelectKey_app, Hlog. cbn [countOpenSelectKey Nat.add].
    destruct (openSelectKey studio 0) as [[]|e|]; cbn [fst snd];
      rewrite <- app_assoc;
      eexists; split; try reflexivity; repeat split; reflexivity.
  - exists []. cbn. now rewrite app_nil_r.
Qed.

Lemma trace_unfold
    (w : World) (file : File.t) (prompt : string) (aspectRatio : AspectRatio) :
  exists keyEvs,
    stateUpdates keyEvs = []
    /\ filter isServiceEffect keyEvs = []
    /\ countOpenSelectKey keyEvs
       = match aistudio w with
         | Some studio =>
             match hasSelectedApiKey studio with
             | Resolved false => 1
             | _ => 0
             end
         | None => 0
         end
    /\ let tr := trace w (Some file) prompt aspectRatio in
       let started := SetVideoState (Replace startState) :: keyEvs in
       match snd (checkApiKey w [SetVideoState (Replace startState)]) with
       | Resolved _ =>
           let service := generateVeoVideo w file prompt aspectRatio [] in
           let called :=
             started ++ [SetVideoState (Progress PROGRESS_MESSAGE)] ++ fst service in
           match snd service with
           | Resolved url => tr = called ++ [SetVideoState (Replace (doneState url))]
           | Rejected error => tr = fst (handleError w error called)
           | Pending => tr = called
           end
       | Rejected error => tr = fst (handleError w error started)
       | Pending => tr = started
       end.
Proof.
  destruct (checkApiKey_outcome w [SetVideoState (Replace startState)] eq_refl)
    as (keyEvs & Ekey & Hupd & Hsvc & Hcount & _).
  exists keyEvs. split; [exact Hupd|]. split; [exact Hsvc|]. split; [exact Hcount|].
  cbv zeta.
  remember (trace w (Some file) prompt aspectRatio) as tr eqn:Etr.
  unfold trace, handleGenerate, bind at 1, setVideoState at 1, emit at 1, tryCatch in Etr.
  cbn [app] in Etr. unfold bind at 1 in Etr.
  destruct (checkApiKey w [SetVideoState (Replace startState)]) as [log1 r1].
  cbn [fst snd] in *. subst log1. cbn [app] in Etr.
  destruct r1 as [[]|error|]; [|exact Etr|exact Etr].
  unfold bind at 1, setVideoState at 1, emit at 1 in Etr. unfold bind at 1 in Etr.
  rewrite framed_generateVeoVideo in Etr.
  destruct (generateVeoVideo w file prompt aspectRatio []) as [genEvs [url|error|]];
    cbn [fst snd] in *; unfold setVideoState, emit in Etr; cbn [fst] in Etr;
    rewrite Etr, <- ?app_assoc; reflexivity.
Qed.

Lemma keyCheckPasses_outcome (w : World) (log : list Event) :
  countOpenSelectKey log = 0 ->
  keyCheckPasses w = true <-> snd (checkApiKey w log) = Resolved tt.
Proof.
  intros Hlog.
  destruct (checkApiKey_outcome w log Hlog) as (_ & _ & _ & _ & _ & ->).
  unfold keyCheckPasses.
  destruct (aistudio w) as [studio|]; [|tauto].
  destruct (hasSelectedApiKey studio) as [[|]|e|]; try tauto;
    try (split; discriminate).
  destruct (openSelectKey studio 0) as [[]|e|]; try tauto; split; discriminate.
Qed.

(** A run whose key check passes: the service is called once, and all
    effects on the outside world other than credential calls are its. *)
Lemma run_passed
    (w : World) (file : File.t) (prompt : string) (aspectRatio : AspectRatio) :
  keyCheckPasses w = true ->
  let tr := trace w (Some file) prompt aspectRatio in
  let service := generateVeoVideo w file prompt aspectRatio [] in
  stateUpdates tr
  = Replace startState :: Progress PROGRESS_MESSAGE :: outcomeUpdates (snd service)
  /\ filter isServiceEffect tr = filter isServiceEffect (fst service).
Proof.
  intros Hpass. cbv zeta.
  apply (keyCheckPasses_outcome w [SetVideoState (Replace startState)] eq_refl) in Hpass.
  destruct (trace_unfold w file prompt aspectRatio) as (keyEvs & Hupd & Hsvc & _ & Hrun).
  cbv zeta in Hrun. rewrite Hpass in Hrun.
  assert (Hpre : forall tail,
             stateUpdates ((SetVideoState (Replace startState) :: keyEvs)
                             ++ [SetVideoState (Progress PROGRESS_MESSAGE)]
                             ++ fst (generateVeoVideo w file prompt aspectRatio [])
                             ++ tail)
             = Replace startState :: Progress PROGRESS_MESSAGE :: stateUpdates tail
             /\ filter isServiceEffect
                  ((SetVideoState (Replace startState) :: keyEvs)
                     ++ [SetVideoState (Progress PROGRESS_MESSAGE)]
                     ++ fst (generateVeoVideo w file prompt aspectRatio [])
                     ++ tail)
                = filter isServiceEffect (fst (generateVeoVideo w file prompt aspectRatio []))
                    ++ filter isServiceEffect tail).
  { intros tail. split.
    - change (SetVideoState (Replace startState) :: keyEvs)
        with ([SetVideoState (Replace startState)] ++ keyEvs).
      rewrite !stateUpdates_app, Hupd, generateVeoVideo_stateUpdates. reflexivity.
    - change (SetVideoState (Replace startState) :: keyEvs)
        with ([SetVideoState (Replace startState)] ++ keyEvs).
      rewrite !filter_app, Hsvc. reflexivity. }
  destruct (snd (generateVeoVideo w file prompt aspectRatio [])) as [url|error|].
  - rewrite Hrun, <- !app_assoc. destruct (Hpre [SetVideoState (Replace (doneState url))])
      as [-> ->]. cbn. now rewrite app_nil_r.
  - destruct (handleError_quiet w error
                ((SetVideoState (Replace startState) :: keyEvs)
                   ++ [SetVideoState (Progress PROGRESS_MESSAGE)]
                   ++ fst (generateVeoVideo w file prompt aspectRatio [])))
      as (errEvs & E & Herr & Hq).
    rewrite Hrun, E, <- !app_assoc. destruct (Hpre errEvs) as [-> ->].
    rewrite Herr, Hq. cbn. now rewrite app_nil_r.
  - rewrite Hrun. specialize (Hpre []). rewrite !app_nil_r in Hpre.
    destruct Hpre as [-> ->]. now split.
Qed.

(** A run whose key check does not pass never reaches the service. *)
Lemma run_blocked
    (w : World) (file : File.t) (prompt : string) (aspectRatio : AspectRatio) :
  keyCheckPasses w = false ->
  let tr := trace w (Some file) prompt aspectRatio in
  filter isServiceEffect tr = []
  /\ match snd (checkApiKey w [SetVideoState (Replace startState)]) with
     | Rejected error => stateUpdates tr = [Replace startState; Fail (surfacedError error)]
     | _ => stateUpdates tr = [Replace startState]
     end.
Proof.
  intros Hblock. cbv zeta.
  assert (Hnot : snd (checkApiKey w [SetVideoState (Replace startState)]) <> Resolved tt).
  { intros H.
    apply (keyCheckPasses_outcome w [SetVideoState (Replace startState)] eq_refl) in H.
    congruence. }
  destruct (trace_unfold w file prompt aspectRatio) as (keyEvs & Hupd & Hsvc & _ & Hrun).
  cbv zeta in Hrun.
  destruct (snd (checkApiKey w [SetVideoState (Replace startState)])) as [[]|error|].
  - congruence.
  - destruct (handleError_quiet w error (SetVideoState (Replace startState) :: keyEvs))
      as (errEvs & E & Herr & Hq).
    rewrite Hrun, E.
    change (?e :: keyEvs) with ([e] ++ keyEvs).
    rewrite !filter_app, !stateUpdates_app, Hsvc, Hq, Hupd, Herr. now split.
  - rewrite Hrun.
    change (?e :: keyEvs) with ([e] ++ keyEvs).
    rewrite !filter_app, !stateUpdates_app, Hsvc, Hupd. now split.
Qed.

Lemma generateVeoVideo_starts
    (w : World) (imageFile : File.t) (prompt : string) (aspectRatio : AspectRatio) :
  exists rest,
    fst (generateVeoVideo w imageFile prompt aspectRatio [])
    = NewGoogleGenAI (API_KEY w)
        :: ReadAsDataURL imageFile (readAsDataURL w imageFile) :: rest.
Proof.
  rewrite generateVeoVideo_unfold. cbv zeta.
  destruct (readAsDataURL w imageFile) as [base64String|e|];
    try (now exists []).
  destruct (generateVideos w _) as [operation|e|]; eexists; reflexivity.
Qed.

Lemma not_Succeeded_failed (vs : VideoState.t) (us : list StateUpdate) (m : string) :
  ~ Succeeded (applyUpdates (us ++ [Fail m]) vs).
Proof.
  unfold applyUpdates. rewrite fold_left_app. cbn. intros (_ & _ & H). discriminate H.
Qed.

(** X5.  The service is reached exactly when the key check passes: then
    the client is created and the image read, in this order, before
    anything else is asked of the outside world; otherwise the run
    performs no effect of the service at all (no client, no file read, no
    request, no wait) and cannot end Succeeded. *)
Theorem X5_key_gate
    (w : World) (file : File.t) (prompt : string) (aspectRatio : AspectRatio) :
  let tr := trace w (Some file) prompt aspectRatio in
  (keyCheckPasses w = true ->
   exists rest,
     filter isServiceEffect tr
     = NewGoogleGenAI (API_KEY w) :: ReadAsDataURL file (readAsDataURL w file) :: rest)
  /\ (keyCheckPasses w = false ->
      filter isServiceEffect tr = []
      /\ forall vs, ~ Succeeded (finalState vs tr)).
Proof.
  cbv zeta. split.
  - intros Hpass.
    destruct (run_passed w file prompt aspectRatio Hpass) as [_ ->].
    destruct (generateVeoVideo_starts w file prompt aspectRatio) as (rest & ->).
    cbn. eauto.
  - intros Hblock.
    destruct (run_blocked w file prompt aspectRatio Hblock) as [Hq Hupd].
    split; [exact Hq|]. intros vs. unfold finalState.
    destruct (snd (checkApiKey w [SetVideoState (Replace startState)])) as [[]|error|];
      rewrite Hupd.
    + intros (H & _). discriminate H.
    + apply (not_Succeeded_failed vs [Replace startState]).
    + intros (H & _). discriminate H.
Qed.

(** X6.  When no key is selected and opening the selector fails, the run
    ends Failed with the fixed message "API Key selection is required to
    proceed.", whatever the selector's own error was; the selector is
    opened once and the service is not reached. *)
Theorem X6_selection_declined
    (w : World) (file : File.t) (prompt : string) (aspectRatio : AspectRatio)
    (vs : VideoState.t) (studio : AIStudio) (e : JsError.t) :
  aistudio w = Some studio ->
  hasSelectedApiKey studio = Resolved false ->
  openSelectKey studio 0 = Rejected e ->
  let tr := trace w (Some file) prompt aspectRatio in
  Failed (finalState vs tr)
  /\ VideoState.error (finalState vs tr) = Some KEY_REQUIRED_MESSAGE
  /\ countOpenSelectKey tr = 1
  /\ filter isServiceEffect tr = [].
Proof.
  intros Hstudio Hkey Hopen. cbv zeta.
  assert (Hblock : keyCheckPasses w = false).
  { unfold keyCheckPasses. now rewrite Hstudio, Hkey, Hopen. }
  destruct (run_blocked w file prompt aspectRatio Hblock) as [Hq Hupd].
  destruct (trace_unfold w file prompt aspectRatio) as (keyEvs & _ & _ & Hcount & Hrun).
  destruct (checkApiKey_outcome w [SetVideoState (Replace startState)] eq_refl)
    as (_ & _ & _ & _ & _ & Hout).
  rewrite Hstudio, Hkey, Hopen in Hout. cbv zeta in Hrun. rewrite Hout in Hupd, Hrun.
  rewrite Hstudio, Hkey in Hcount.
  unfold finalState. rewrite Hupd.
  repeat split; try assumption.
  rewrite Hrun, handleError_other by reflexivity. cbn [fst].
  change (?x :: keyEvs) with ([x] ++ keyEvs).
  rewrite !countOpenSelectKey_app, Hcount. reflexivity.
Qed.

(* ================================================================= *)
(** ** How the failures of the service call surface *)

Lemma run_observed
    (w : World) (file : File.t) (prompt : string) (aspectRatio : AspectRatio) :
  keyCheckPasses w = true ->
  let tr := trace w (Some file) prompt aspectRatio in
  let service := generateVeoVideo w file prompt aspectRatio [] in
  creationRequests tr = creationRequests (fst service)
  /\ statusRequests tr = statusRequests (fst service)
  /\ timeouts tr = timeouts (fst service)
  /\ handles tr = handles (fst service).
Proof.
  intros Hpass. cbv zeta.
  destruct (run_passed w file prompt aspectRatio Hpass) as [_ Hsvc].
  destruct (serviceEffects_observed (trace w (Some file) prompt aspectRatio))
    as (-> & -> & -> & ->).
  destruct (serviceEffects_observed (fst (generateVeoVideo w file prompt aspectRatio [])))
    as (-> & -> & -> & ->).
  now rewrite Hsvc.
Qed.

Lemma remoteRequests_observed (tr : list Event) :
  existsb isRemoteRequest tr = existsb isRemoteRequest (filter isServiceEffect tr).
Proof.
  induction tr as [|ev tr IH]; [reflexivity|].
  destruct ev; cbn; now rewrite ?IH.
Qed.

Lemma finalState_service_failed (vs : VideoState.t) (tr : list Event) (m : string) :
  stateUpdates tr = [Replace startState; Progress PROGRESS_MESSAGE; Fail m] ->
  Failed (finalState vs tr) /\ VideoState.error (finalState vs tr) = Some m.
Proof. unfold finalState. intros ->. repeat split. Qed.

(** X7.  When reading the image fails, the run ends Failed with the
    reader's message (the generic "An unexpected error occurred" when the
    rejection carries none, as a browser's error event does), and no
    request is sent to the remote service. *)
Theorem X7_read_failure
    (w : World) (file : File.t) (prompt : string) (aspectRatio : AspectRatio)
    (vs : VideoState.t) (e : JsError.t) :
  keyCheckPasses w = true ->
  readAsDataURL w file = Rejected e ->
  let tr := trace w (Some file) prompt aspectRatio in
  Failed (finalState vs tr)
  /\ VideoState.error (finalState vs tr) = Some (surfacedError e)
  /\ (JsError.message e = None ->
      VideoState.error (finalState vs tr) = Some UNEXPECTED_MESSAGE)
  /\ existsb isRemoteRequest tr = false.
Proof.
  intros Hpass Hread. cbv zeta.
  destruct (run_passed w file prompt aspectRatio Hpass) as [Hupd Hsvc].
  cbv zeta in Hupd, Hsvc. rewrite generateVeoVideo_unfold in Hupd, Hsvc.
  cbv zeta in Hupd, Hsvc. rewrite Hread in Hupd, Hsvc. cbn in Hupd, Hsvc.
  destruct (finalState_service_failed vs _ _ Hupd) as [Hfailed Herr].
  split; [exact Hfailed|]. split; [exact Herr|]. split.
  - intros Hnone. rewrite Herr. unfold surfacedError, errorMessageOf.
    now rewrite Hnone.
  - now rewrite remoteRequests_observed, Hsvc.
Qed.



Lemma pollLoop_never_done (snapshots : list Operation.t) (operation : Operation.t) :
  forallb (fun h => negb (Operation.done h)) (operation :: snapshots) = true ->
  snd (pollLoop (map Resolved snapshots) operation []) = Pending
  /\ statusRequests (fst (pollLoop (map Resolved snapshots) operation []))
     = S (length snapshots).
Proof.
  revert operation.
  induction snapshots as [|h snapshots IH]; intros operation H;
    cbn [forallb] in H; apply andb_true_iff in H; destruct H as [Hd Hrest];
    apply negb_true_iff in Hd; cbn [map].
  - rewrite pollLoop_exhausted by assumption. now split.
  - rewrite pollLoop_step by assumption. cbn [fst snd].
    rewrite statusRequests_app. destruct (IH h Hrest) as [-> ->]. now split.
Qed.

(** X10.  No timeout is enforced locally: as long as every snapshot
    received is not done and no call fails, the workflow stays busy with
    the progress message of the submission, neither result nor error is
    set, and each snapshot costs one status request after a wait of
    5000 ms. *)
Theorem X10_no_local_timeout
    (w : World) (file : File.t) (prompt : string) (aspectRatio : AspectRatio)
    (vs : VideoState.t) (base64String : string)
    (operation : Operation.t) (snapshots : list Operation.t) :
  keyCheckPasses w = true ->
  readAsDataURL w file = Resolved base64String ->
  generateVideos w (generateVideosParameters (generativePartOf file base64String)
                                             prompt aspectRatio)
  = Resolved operation ->
  getVideosOperation w = map Resolved snapshots ->
  forallb (fun h => negb (Operation.done h)) (operation :: snapshots) = true ->
  let tr := trace w (Some file) prompt aspectRatio in
  finalState vs tr
  = {| VideoState.isLoading := true;
       VideoState.progressMessage := PROGRESS_MESSAGE;
       VideoState.videoUrl := None;
       VideoState.error := None |}
  /\ statusRequests tr = S (length snapshots)
  /\ timeouts tr = repeat 5000%N (S (length snapshots)).
Proof.
  intros Hpass Hread Hcreate Hpolls Hnot. cbv zeta.
  destruct (run_passed w file prompt aspectRatio Hpass) as [Hupd _].
  destruct (run_observed w file prompt aspectRatio Hpass) as (_ & -> & -> & _).
  destruct (pollLoop_never_done snapshots operation Hnot) as [Hres Hcount].
  pose proof (pollLoop_waits (map Resolved snapshots) operation) as Hwait.
  cbv zeta in *. rewrite generateVeoVideo_unfold in *. cbv zeta in *.
  rewrite Hread in *. rewrite Hcreate in *. rewrite Hpolls in *.
  cbn [fst snd] in *. rewrite Hres in Hupd. cbn in Hupd.
  unfold finalState. rewrite Hupd.
  split; [reflexivity|].
  rewrite !statusRequests_app, !timeouts_app, Hwait, Hcount. split; reflexivity.
Qed.

(** X11.  A run ends Succeeded exactly when the latest handle it received
    is done, carries no error payload and carries a non-empty result
    locator; the progress message is then "Done!". *)
Theorem X11_success_iff
    (w : World) (file : File.t) (prompt : string) (aspectRatio : AspectRatio)
    (vs : VideoState.t) :
  let tr := trace w (Some file) prompt aspectRatio in
  (Succeeded (finalState vs tr)
   <-> exists operation u,
         lastHandle tr = Some operation
         /\ Operation.done operation = true
         /\ Operation.error operation = None
         /\ videoUri operation = Some u
         /\ Js.truthy u = true)
  /\ (Succeeded (finalState vs tr) ->
      VideoState.progressMessage (finalState vs tr) = "Done!").
Proof.
  cbv zeta.
  destruct (run_summary w file prompt aspectRatio) as [_ Hrun]. cbv zeta in Hrun.
  split; [split|].
  - intros [Hbusy [Hres Herr]].
    destruct Hrun as [[_ [Hupd | [error Hupd]]] | [Hsame Hupd]];
      unfold finalState in *; rewrite Hupd in *;
      try discriminate Hbusy; try discriminate Herr.
    destruct (snd (generateVeoVideo w file prompt aspectRatio [])) as [url|error|] eqn:E;
      try discriminate Hbusy; try discriminate Herr.
    destruct (generateVeoVideo_resolved _ _ _ _ _ E) as (operation & Hl & Hd).
    rewrite (generateVeoVideo_settles _ _ _ _ _ Hl Hd) in E.
    exists operation. unfold resolveOperation in E.
    destruct (Operation.error operation); [discriminate E|].
    destruct (videoUri operation) as [u|]; [|discriminate E].
    destruct (Js.truthy u) eqn:Hu; [|discriminate E].
    exists u. rewrite Hsame. auto.
  - intros (operation & u & Hlast & Hdone & Herror & Huri & Hu).
    destruct Hrun as [[Hnone _] | [Hsame Hupd]]; [congruence|].
    rewrite Hsame in Hlast.
    rewrite (generateVeoVideo_settles _ _ _ _ _ Hlast Hdone) in Hupd.
    unfold resolveOperation in Hupd. rewrite Herror, Huri, Hu in Hupd.
    unfold finalState. rewrite Hupd. repeat split.
  - intros [Hbusy [Hres Herr]].
    destruct Hrun as [[_ [Hupd | [error Hupd]]] | [Hsame Hupd]];
      unfold finalState in *; rewrite Hupd in *;
      try discriminate Hbusy; try discriminate Herr.
    destruct (snd (generateVeoVideo w file prompt aspectRatio [])) as [url|error|];
      try discriminate Hbusy; try discriminate Herr.
    reflexivity.
Qed.

(* ================================================================= *)
(** ** What the failure handler surfaces *)





(* ================================================================= *)
(** ** The component: single flight, the view, the inputs *)

Lemma reachable_Inv (s : App.t) : App.reachable s -> Inv s.
Proof.
  induction 1 as [|s s' _ IH Hstep]; [apply Inv_init | exact (Inv_step s s' Hstep IH)].
Qed.

(** X13.  At most one run owes state updates at any time; while one does,
    the workflow is busy, the Generate button is disabled and the error
    pane with its dismiss button is not rendered, so neither a second
    start nor a dismiss can interleave with a run. *)
Theorem X13_single_flight (s : App.t) :
  App.reachable s ->
  length (live s) <= 1
  /\ (live s <> [] ->
      busy (App.videoState s) = true
      /\ App.generateDisabled s = true
      /\ App.errorShown s = false).
Proof.
  intros Hreach. destruct (reachable_Inv s Hreach) as [_ _ Hsingle].
  destruct Hsingle as [-> | (q & -> & Hl & _ & He)].
  - split; [cbn; lia | congruence].
  - split; [cbn; lia|]. intros _.
    unfold busy, App.generateDisabled, Button_disabled, App.errorShown.
    rewrite Hl, He. split; [reflexivity|]. split; [apply orb_true_r | reflexivity].
Qed.

Lemma truthy_errorMessageOf (error : JsError.t) : Js.truthy (errorMessageOf error) = true.
Proof.
  unfold errorMessageOf, Js.orElse.
  destruct (JsError.message error) as [m|]; [|reflexivity].
  now destruct (Js.truthy m) eqn:E.
Qed.

Lemma truthy_surfacedError (error : JsError.t) : Js.truthy (surfacedError error) = true.
Proof.
  unfold surfacedError.
  destruct (Js.includes (errorMessageOf error) ENTITY_NOT_FOUND);
    [reflexivity | apply truthy_errorMessageOf].
Qed.

Lemma truthy_append (a b : string) : Js.truthy a = true -> Js.truthy (a ++ b)%string = true.
Proof. now destruct a. Qed.

Lemma generateVeoVideo_url_truthy
    (w : World) (imageFile : File.t) (prompt : string) (aspectRatio : AspectRatio)
    (url : string) :
  snd (generateVeoVideo w imageFile prompt aspectRatio []) = Resolved url ->
  Js.truthy url = true.
Proof.
  intros E.
  destruct (generateVeoVideo_resolved _ _ _ _ _ E) as (operation & Hl & Hd).
  rewrite (generateVeoVideo_settles _ _ _ _ _ Hl Hd) in E.
  unfold resolveOperation in E.
  destruct (Operation.error operation); [discriminate E|].
  destruct (videoUri operation) as [u|]; [|discriminate E].
  destruct (Js.truthy u) eqn:Hu; [|discriminate E].
  cbn in E. injection E as <-. now apply truthy_append.
Qed.

(** Every state update of a run installs only non-empty texts. *)
Lemma trace_renderable
    (w : World) (file : File.t) (prompt : string) (aspectRatio : AspectRatio) :
  forallb renderableUpdate (stateUpdates (trace w (Some file) prompt aspectRatio)) = true.
Proof.
  destruct (run_summary w file prompt aspectRatio) as [_ Hrun]. cbv zeta in Hrun.
  destruct Hrun as [[_ [-> | [error ->]]] | [_ ->]].
  - reflexivity.
  - cbn. now rewrite truthy_surfacedError.
  - destruct (snd (generateVeoVideo w file prompt aspectRatio [])) as [url|error|] eqn:E.
    + cbn. unfold renderable. cbn.
      now rewrite (generateVeoVideo_url_truthy _ _ _ _ _ E).
    + cbn. now rewrite truthy_surfacedError.
    + reflexivity.
Qed.

Lemma applyUpdate_renderable (u : StateUpdate) (vs : VideoState.t) :
  renderableUpdate u = true -> renderable vs = true -> renderable (applyUpdate u vs) = true.
Proof.
  unfold renderable. destruct u as [next|m|m|]; cbn; intros Hu Hvs; try assumption.
  - apply andb_true_iff in Hvs. destruct Hvs as [-> _]. exact Hu.
  - apply andb_true_iff in Hvs. destruct Hvs as [-> _]. reflexivity.
Qed.

Lemma Renderable_step (s s' : App.t) : App.step s s' -> Renderable s -> Renderable s'.
Proof.
  intros Hstep [Hvs Hin].
  destruct Hstep as [s f | s p | s a | s w Hen | s before after u pending Hq | s Hshown];
    try (split; assumption).
  - unfold App.clickGenerate.
    destruct (App.file s) as [file|] eqn:Hfile.
    + pose proof (trace_renderable w file (App.prompt s) (App.aspectRatio s)) as Hall.
      destruct (stateUpdates (trace w (Some file) (App.prompt s) (App.aspectRatio s)))
        as [|u pending]; [split; assumption|].
      cbn [forallb] in Hall. apply andb_true_iff in Hall. destruct Hall as [Hu Hp].
      split; cbn.
      * now apply applyUpdate_renderable.
      * now rewrite Hp, Hin.
    + now split.
  - rewrite Hq in Hin. rewrite forallb_app in Hin.
    apply andb_true_iff in Hin. destruct Hin as [Hb Ha].
    cbn [forallb] in Ha. apply andb_true_iff in Ha. destruct Ha as [Hup Ha].
    apply andb_true_iff in Hup. destruct Hup as [Hu Hp].
    split; cbn.
    + now apply applyUpdate_renderable.
    + rewrite forallb_app. cbn [forallb]. now rewrite Hb, Hp, Ha.
  - split; [|exact Hin].
    apply (applyUpdate_renderable ClearError); [reflexivity | exact Hvs].
Qed.

Lemma reachable_Renderable (s : App.t) : App.reachable s -> Renderable s.
Proof.
  induction 1 as [|s s' _ IH Hstep]; [now split | exact (Renderable_step s s' Hstep IH)].
Qed.

(** X14.  In every reachable state the result column renders exactly one
    of its four panes (placeholder, loading overlay, error pane, video
    player), the one matching the condition that holds of the workflow
    state; and the download link is rendered exactly when the player is. *)
Theorem X14_one_pane (s : App.t) :
  App.reachable s ->
  let vs := App.videoState s in
  panesShown vs = 1
  /\ emptyShown vs = idle vs
  /\ loadingShown vs = busy vs
  /\ errorPaneShown vs = hasError vs
  /\ playerShown vs = hasResult vs
  /\ downloadShown vs = playerShown vs.
Proof.
  intros Hreach. cbv zeta.
  destruct (reachable_Inv s Hreach) as [Hex _ _].
  destruct (reachable_Renderable s Hreach) as [Hr _].
  destruct (App.videoState s) as [loading message url err].
  unfold renderable in Hr. cbn in Hr.
  unfold exactlyOne, conditionsHolding, idle, busy, hasResult, hasError in Hex.
  unfold panesShown, emptyShown, loadingShown, errorPaneShown, playerShown,
    downloadShown, idle, busy, hasResult, hasError.
  cbn in *.
  destruct loading, url as [u|], err as [m|]; cbn in *; try discriminate Hex;
    try (apply andb_true_iff in Hr; destruct Hr as [Hu Hm]);
    rewrite ?Hu, ?Hm, ?Hr; repeat split.
Qed.

Lemma no_file_initial (s : App.t) :
  App.reachable s -> App.file s = None ->
  App.videoState s = initialVideoState /\ App.inflight s = [].
Proof.
  intros Hreach.
  induction Hreach as [|s s' _ IH Hstep]; [now split|].
  destruct Hstep as [s f | s p | s a | s w Hen | s before after u pending Hq | s Hshown];
    cbn; intros Hfile; try discriminate Hfile; try (now apply IH).
  - unfold App.generateDisabled, Button_disabled in Hen.
    unfold App.clickGenerate in Hfile.
    destruct (App.file s) eqn:E; [|discriminate Hen].
    destruct (stateUpdates _); cbn in Hfile; congruence.
  - destruct (IH Hfile) as [_ Hin]. rewrite Hin in Hq. now destruct before.
  - destruct (IH Hfile) as [Hvs _].
    unfold App.errorShown in Hshown. rewrite Hvs in Hshown. discriminate Hshown.
Qed.

(** X15.  While no image is selected nothing can have started: the
    workflow state is the initial one, no run is in flight and the
    Generate button is disabled.  And no transition clears a selected
    image; it can only be replaced. *)
Theorem X15_inputs (s : App.t) :
  App.reachable s ->
  (App.file s = None ->
   App.videoState s = initialVideoState
   /\ App.inflight s = []
   /\ App.generateDisabled s = true)
  /\ (forall s', App.step s s' -> App.file s <> None -> App.file s' <> None).
Proof.
  intros Hreach. split.
  - intros Hfile. destruct (no_file_initial s Hreach Hfile) as [Hvs Hin].
    repeat split; try assumption.
    unfold App.generateDisabled. now rewrite Hfile.
  - intros s' Hstep.
    destruct Hstep as [s f | s p | s a | s w Hen | s before after u pending Hq | s Hshown];
      cbn; try (intros H; exact H); try discriminate.
    unfold App.clickGenerate. destruct (stateUpdates _); cbn; auto.
Qed.


(** X17.  Whenever the error pane is rendered, dismissing it leads to the
    idle state showing the placeholder, with no run in flight and the
    Generate button enabled: an error can only follow a start, so an image
    is selected and the user can retry at once. *)
Theorem X17_dismiss_then_retry (s : App.t) :
  App.reachable s ->
  App.errorShown s = true ->
  let s' := App.dismiss s in
  Idle (App.videoState s')
  /\ emptyShown (App.videoState s') = true
  /\ live s' = []
  /\ App.generateDisabled s' = false.
Proof.
  intros Hreach Hshown. cbv zeta.
  destruct (reachable_Inv s Hreach) as [Hex _ Hsingle].
  assert (Hfile : App.file s <> None).
  { intros Hnone. destruct (no_file_initial s Hreach Hnone) as [Hinit _].
    unfold App.errorShown in Hshown. rewrite Hinit in Hshown. discriminate Hshown. }
  unfold App.errorShown in Hshown.
  unfold App.dismiss, Idle, idle, busy, hasResult, hasError, emptyShown,
    App.generateDisabled, Button_disabled, live in *.
  destruct (App.videoState s) as [loading message url err] eqn:Evs.
  cbn in *. destruct err as [m|]; [|discriminate Hshown].
  destruct Hsingle as [Hlive | (q & _ & _ & _ & He)]; [|discriminate He].
  unfold exactlyOne, conditionsHolding, idle, busy, hasResult, hasError in Hex.
  cbn in Hex.
  destruct loading, url; cbn in Hex; try discriminate Hex.
  destruct (App.file s); [|congruence].
  repeat split. exact Hlive.
Qed.

(* ================================================================= *)
(** ** The upload widget's handlers *)

(** X18.  Each handler of the upload widget calls [onFileSelect] at most
    once, with the first file of the list only: a null or empty list
    selects nothing, and a drop whose first file is not an image selects
    nothing even when an image follows.  A drop always prevents the
    browser's default and ends the dragging highlight, also when nothing
    is selected; the file input leaves the highlight as it is. *)
Theorem X18_upload_handlers (files : option (list File.t)) (dragging : bool) :
  FileUpload.selected (FileUpload.handleDrop files)
  = match firstFile files with
    | Some file => if Js.startsWith (File.type file) "image/" then [file] else []
    | None => []
    end
  /\ FileUpload.selected (FileUpload.handleFileChange files)
     = match firstFile files with
       | Some file => [file]
       | None => []
       end
  /\ length (FileUpload.selected (FileUpload.handleDrop files)) <= 1
  /\ length (FileUpload.selected (FileUpload.handleFileChange files)) <= 1
  /\ (forall first image rest,
         files = Some (first :: image :: rest) ->
         Js.startsWith (File.type first) "image/" = false ->
         FileUpload.selected (FileUpload.handleDrop files) = [])
  /\ In FileUpload.PreventDefault (FileUpload.handleDrop files)
  /\ isDraggingAfter dragging (FileUpload.handleDrop files) = false
  /\ isDraggingAfter dragging (FileUpload.handleFileChange files) = dragging
  /\ isDraggingAfter dragging handleDragOver = true
  /\ isDraggingAfter dragging handleDragLeave = false.
Proof.
  unfold FileUpload.handleDrop, FileUpload.handleFileChange, firstFile.
  destruct files as [[|file rest]|]; cbn;
    try (repeat split; try lia; try (now left); intros; discriminate).
  destruct (Js.startsWith (File.type file) "image/") eqn:E; cbn;
    repeat split; try lia; try (now left).
  - intros first image rest' H Hno. injection H as -> _. congruence.
Qed.

(* ================================================================= *)
(** ** What no run ever does *)

Lemma generateVeoVideo_requests
    (w : World) (imageFile : File.t) (prompt : string) (aspectRatio : AspectRatio) :
  let evs := fst (generateVeoVideo w imageFile prompt aspectRatio []) in
  length (creationRequests evs) <= 1
  /\ (statusRequests evs <> 0 -> length (creationRequests evs) = 1)
  /\ timeouts evs = repeat 5000%N (statusRequests evs).
Proof.
  cbv zeta. rewrite generateVeoVideo_unfold. cbv zeta.
  destruct (readAsDataURL w imageFile) as [base64String|e|];
    try (cbn; repeat split; try lia; congruence).
  destruct (generateVideos w _) as [operation|e|];
    try (cbn; repeat split; try lia; congruence).
  cbn [fst].
  rewrite !creationRequests_app, !statusRequests_app, !timeouts_app, pollLoop_waits.
  destruct (pollLoop_quiet (getVideosOperation w) operation) as [_ ->].
  cbn. repeat split; lia.
Qed.

(** X19.  Whatever the outside world answers, a run sends at most one
    creation request, sends no status request unless it has sent the
    creation request, and waits 5000 ms once for every status request it
    sends. *)
Theorem X19_request_discipline
    (w : World) (file : File.t) (prompt : string) (aspectRatio : AspectRatio) :
  let tr := trace w (Some file) prompt aspectRatio in
  length (creationRequests tr) <= 1
  /\ (statusRequests tr <> 0 -> length (creationRequests tr) = 1)
  /\ timeouts tr = repeat 5000%N (statusRequests tr).
Proof.
  cbv zeta. destruct (keyCheckPasses w) eqn:Hkey.
  - destruct (run_observed w file prompt aspectRatio Hkey) as (-> & -> & -> & _).
    apply generateVeoVideo_requests.
  - destruct (run_blocked w file prompt aspectRatio Hkey) as [Hq _].
    destruct (serviceEffects_observed (trace w (Some file) prompt aspectRatio))
      as (-> & -> & -> & _).
    rewrite Hq. cbn. repeat split; lia.
Qed.

(* ================================================================= *)
(** ** Witnesses of the further properties *)

Lemma started_reachable : App.reachable example_started.
Proof.
  apply (App.reachable_step example_selected).
  - apply (App.reachable_step App.init).
    + apply App.reachable_init.
    + apply App.step_selectFile.
  - apply App.step_clickGenerate. reflexivity.
Qed.

Lemma quota_failed_reachable : App.reachable quota_failed.
Proof.
  apply (App.reachable_step quota_progress).
  - apply (App.reachable_step quota_started).
    + apply (App.reachable_step example_selected).
      * apply (App.reachable_step App.init).
        -- apply App.reachable_init.
        -- apply App.step_selectFile.
      * apply App.step_clickGenerate. reflexivity.
    + apply (App.step_resume quota_started [] []
               (Progress PROGRESS_MESSAGE)
               [Fail "Video generation failed: Quota exceeded"]).
      reflexivity.
  - apply (App.step_resume quota_progress [] []
             (Fail "Video generation failed: Quota exceeded") []).
    reflexivity.
Qed.

Lemma X1_witness :
  snd (fileToGenerativePart world_success landscape_jpg [])
  = Resolved {| GenerativePart.mimeType := "image/jpeg";
                GenerativePart.data := Some "QUJD" |}.
Proof.
  exact (proj1 (X1_fileToGenerativePart world_success landscape_jpg [])
           "data:image/jpeg;base64" "QUJD" eq_refl eq_refl eq_refl).
Defined.

Lemma X2_witness :
  exists request,
    creationRequests (fst (generateVeoVideo world_success landscape_jpg "" LANDSCAPE []))
    = [request]
    /\ GenerateVideos.image request
       = {| GenerateVideos.imageBytes := Some "QUJD";
            GenerateVideos.mimeType := "image/jpeg" |}
    /\ GenerateVideos.model request = "veo-3.1-fast-generate-preview".
Proof.
  exact (X2_request_image world_success landscape_jpg "" LANDSCAPE
           "data:image/jpeg;base64" "QUJD" eq_refl eq_refl eq_refl).
Defined.

Lemma X6_witness :
  VideoState.error
    (finalState initialVideoState (trace world_declined (Some landscape_jpg) "" LANDSCAPE))
  = Some "API Key selection is required to proceed."
  /\ countOpenSelectKey (trace world_declined (Some landscape_jpg) "" LANDSCAPE) = 1.
Proof.
  destruct (X6_selection_declined world_declined landscape_jpg "" LANDSCAPE
              initialVideoState studioNoKey (newError "cancelled")
              eq_refl eq_refl eq_refl)
    as (_ & Herr & Hcount & _).
  exact (conj Herr Hcount).
Defined.

Lemma X7_witness :
  VideoState.error
    (finalState initialVideoState (trace world_unreadable (Some landscape_jpg) "" LANDSCAPE))
  = Some "An unexpected error occurred".
Proof.
  exact (proj1 (proj2
           (X7_read_failure world_unreadable landscape_jpg "" LANDSCAPE
              initialVideoState {| JsError.message := None |} eq_refl eq_refl))).
Defined.



Lemma X10_witness :
  busy (finalState initialVideoState (trace world_slow (Some landscape_jpg) "" LANDSCAPE))
  = true
  /\ timeouts (trace world_slow (Some landscape_jpg) "" LANDSCAPE)
     = [5000; 5000; 5000]%N.
Proof.
  destruct (X10_no_local_timeout world_slow landscape_jpg "" LANDSCAPE initialVideoState
              "data:image/jpeg;base64,QUJD" opRunning [opRunning; opRunning]
              eq_refl eq_refl eq_refl eq_refl eq_refl)
    as (Hstate & _ & Hwait).
  split; [now rewrite Hstate | exact Hwait].
Defined.

Lemma X13_witness :
  busy (App.videoState example_started) = true
  /\ App.generateDisabled example_started = true
  /\ App.errorShown example_started = false.
Proof.
  destruct (X13_single_flight example_started started_reachable) as [_ H].
  apply H. discriminate.
Defined.

Lemma X14_witness : panesShown (App.videoState quota_failed) = 1.
Proof. exact (proj1 (X14_one_pane quota_failed quota_failed_reachable)). Defined.

Lemma X15_witness :
  App.videoState (App.setPrompt "a slow zoom" App.init) = initialVideoState
  /\ App.inflight (App.setPrompt "a slow zoom" App.init) = []
  /\ App.generateDisabled (App.setPrompt "a slow zoom" App.init) = true.
Proof.
  apply (proj1 (X15_inputs (App.setPrompt "a slow zoom" App.init)
                  (App.reachable_step App.init _ App.reachable_init
                     (App.step_setPrompt App.init "a slow zoom")))).
  reflexivity.
Defined.


Lemma X17_witness :
  Idle (App.videoState (App.dismiss quota_failed))
  /\ App.generateDisabled (App.dismiss quota_failed) = false.
Proof.
  destruct (X17_dismiss_then_retry quota_failed quota_failed_reachable eq_refl)
    as (Hidle & _ & _ & Hen).
  exact (conj Hidle Hen).
Defined.
